(** * cellpylib: one-dimensional cellular automata

    A shallow embedding of [cellpylib/ca_functions.py] and the verification of
    its evolver, its binary codec, its rule evaluators and its random rule
    table generator.

    Conventions of the embedding:
    - a Python [int] is a [Z]; positions in a list and loop counters that
      Python takes from [range] or [enumerate] are [nat];
    - a NumPy one-dimensional integer array is a [list Z], a two-dimensional
      one a [list (list Z)]; cell states are assumed to fit the array's
      element type;
    - a Python [str] is a [list ascii]; a [dict] keyed by strings is a
      [gmap (list ascii) Z];
    - a raised exception is the [Raise] case of [result];
    - the global random generators are an explicit [random_source] read at
      a position that every draw advances;
    - the Python floats [lambda_val] and [actual_lambda_val] are kept as exact
      rationals. *)

From Stdlib Require Import ZArith QArith Ascii String List Lia.
From stdpp Require Import base option list gmap strings fin_maps.

Local Open Scope Z_scope.

(** ** Exceptions *)

Inductive exn : Type :=
  | IndexError
  | ValueError
  | TypeError
  | KeyError
  | ZeroDivisionError
  | Exception (msg : string).

Inductive result (A : Type) : Type :=
  | Ok (a : A)
  | Raise (e : exn).
Arguments Ok {A} a.
Arguments Raise {A} e.

#[global] Instance result_ret : MRet result := λ A a, Ok a.
#[global] Instance result_bind : MBind result := λ A B f m,
  match m with
  | Ok a => f a
  | Raise e => Raise e
  end.
#[global] Instance result_fmap : FMap result := λ A B f m,
  match m with
  | Ok a => Ok (f a)
  | Raise e => Raise e
  end.

Definition of_option {A} (e : exn) (o : option A) : result A :=
  match o with
  | Some a => Ok a
  | None => Raise e
  end.

(** ** Python and NumPy primitives *)

Module Py.

(** [l[start:]] *)
Definition slice_from {A} (start : Z) (l : list A) : list A :=
  let len := Z.of_nat (length l) in
  let s := if start <? 0 then Z.max (start + len) 0 else Z.min start len in
  drop (Z.to_nat s) l.

(** [l[:stop]] *)
Definition slice_to {A} (stop : Z) (l : list A) : list A :=
  let len := Z.of_nat (length l) in
  let s := if stop <? 0 then Z.max (stop + len) 0 else Z.min stop len in
  take (Z.to_nat s) l.

(** [l[i]] for an integer [i]: a negative index counts from the right end,
    an index outside [-len, len) raises [IndexError]. *)
Definition index {A} (l : list A) (i : Z) : result A :=
  let len := Z.of_nat (length l) in
  if (0 <=? i) && (i <? len) then of_option IndexError (l !! Z.to_nat i)
  else if (- len <=? i) && (i <? 0) then of_option IndexError (l !! Z.to_nat (i + len))
  else Raise IndexError.

(** [enumerate(l)] *)
Definition enumerate {A} (l : list A) : list (nat * A) := imap pair l.

(** [np.arange(n)] *)
Definition arange (n : nat) : list nat := seq 0 n.

(** [np.lib.stride_tricks.as_strided(arr, shape=(rows, w), strides=(s, s))]
    for a one-dimensional [arr] of item stride [s]: row [c] is
    [arr[c : c + w]].  A negative dimension is refused. *)
Definition as_strided {A} (arr : list A) (rows : Z) (w : nat) : result (list (list A)) :=
  if rows <? 0 then Raise ValueError
  else Ok ((λ c, take w (drop c arr)) <$> seq 0 (Z.to_nat rows)).

(** [cells[idx]] for a two-dimensional integer array [idx]. *)
Definition take_indices {A} (cells : list A) (idx : list (list nat)) : result (list (list A)) :=
  of_option IndexError (mapM (mapM (λ i, cells !! i)) idx).

(** [row[...] = vals]: the assignment of a one-dimensional array to a row of
    length [cols], with NumPy's broadcasting of a one-element array. *)
Definition broadcast_row {A} (cols : nat) (vals : list A) : result (list A) :=
  if decide (length vals = cols) then Ok vals
  else match vals with
       | [v] => Ok (replicate cols v)
       | _ => Raise ValueError
       end.

End Py.

(** ** The evolver *)

Section Evolve.

(** The rule function: neighborhood and absolute cell index to next state. *)
Variable apply_rule : list Z → nat → Z.
Variable r : nat.

(** The inner function [index_strides] of [evolve]. *)
Definition index_strides (arr : list nat) (window_size : nat) : result (list (list nat)) :=
  let arr' := Py.slice_from ((- Z.of_nat window_size) `div` 2 + 1) arr
              ++ arr ++ Py.slice_to (Z.of_nat (window_size / 2)%nat) arr in
  Py.as_strided arr' (Z.of_nat (length arr') - Z.of_nat window_size + 1) window_size.

(** [states] of the loop body: the neighborhoods of all cells of [cells]. *)
Definition neighborhoods (cells : list Z) : result (list (list Z)) :=
  strides ← index_strides (Py.arange (length cells)) (2 * r + 1)%nat;
  Py.take_indices cells strides.

(** One iteration of [for i in range(1, n_steps)]. *)
Definition evolve_step (cols : nat) (array : list (list Z)) (i : nat) : result (list (list Z)) :=
  cells ← of_option IndexError (array !! (i - 1)%nat);
  states ← neighborhoods cells;
  let new := (λ '(c, s), apply_rule s c) <$> Py.enumerate states in
  row ← Py.broadcast_row cols new;
  Ok (<[i := row]> array).

Fixpoint evolve_loop (cols : nat) (array : list (list Z)) (steps : list nat) : result (list (list Z)) :=
  match steps with
  | [] => Ok array
  | i :: steps' => array' ← evolve_step cols array i; evolve_loop cols array' steps'
  end.

(** [evolve(cellular_automaton, n_steps, apply_rule, r)], where
    [cellular_automaton] is the one-row array [np.array([row])]. *)
Definition evolve (row : list Z) (n_steps : nat) : result (list (list Z)) :=
  let cols := length row in
  let array := replicate n_steps (replicate cols 0) in
  match n_steps with
  | O => Raise IndexError
  | S _ => evolve_loop cols (<[0%nat := row]> array) (seq 1 (n_steps - 1))
  end.

End Evolve.

(** The neighborhood of cell [c] in the words of the specification: the
    states at the indices [(c - r) mod N], ..., [c], ..., [(c + r) mod N]. *)
Definition wrap_index (N : nat) (x : Z) : nat := Z.to_nat (x `mod` Z.of_nat N).

Definition neighborhood (r : nat) (cells : list Z) (c : nat) : list Z :=
  (λ t, cells !!! wrap_index (length cells) (Z.of_nat c + Z.of_nat t - Z.of_nat r))
    <$> seq 0 (2 * r + 1).

(** The synchronous update of a whole row from the previous one. *)
Definition sync_row (f : list Z → nat → Z) (r : nat) (prev : list Z) : list Z :=
  (λ c, f (neighborhood r prev c) c) <$> seq 0 (length prev).

(** The radii for which the loop body of [evolve] succeeds on rows of length
    [cols]. *)
Definition supported_radius (r cols : nat) : Prop :=
  (1 ≤ r ≤ cols)%nat ∨ (r = 0%nat ∧ cols = 0%nat).

(** ** The binary codec *)

(** The digit alphabet of [np.base_repr]. *)
Definition digits : list ascii :=
  list_ascii_of_string "0123456789ABCDEFGHIJKLMNOPQRSTUVWXYZ".

Definition lower_digits : list ascii :=
  list_ascii_of_string "0123456789abcdefghijklmnopqrstuvwxyz".

(** [digits[d]]; every call site has [0 <= d < 36]. *)
Definition digit_char (d : Z) : ascii := nth (Z.to_nat d) digits "0"%char.

Fixpoint find_index (c : ascii) (l : list ascii) : option nat :=
  match l with
  | [] => None
  | x :: l' => if decide (x = c) then Some O else S <$> find_index c l'
  end.

Definition digit_value (c : ascii) : option Z :=
  match find_index c digits with
  | Some i => Some (Z.of_nat i)
  | None => Z.of_nat <$> find_index c lower_digits
  end.

(** [int(c, base)] for a one-character string [c]. *)
Definition int_of_char (c : ascii) (base : Z) : result Z :=
  if (base =? 0) || ((2 <=? base) && (base <=? 36)) then
    match digit_value c with
    | Some d => if d <? (if base =? 0 then 10 else base) then Ok d else Raise ValueError
    | None => Raise ValueError
    end
  else Raise ValueError.

(** The loop [while num: res.append(digits[num % base]); num //= base]. *)
Fixpoint repr_loop (fuel : nat) (base num : Z) (res : list ascii) : list ascii :=
  match fuel with
  | O => res
  | S fuel' =>
      if num =? 0 then res
      else repr_loop fuel' base (num `div` base) (res ++ [digit_char (num `mod` base)])
  end.

(** Iterations that the loop cannot exceed for a base of at least 2. *)
Definition repr_fuel (num : Z) : nat := S (Z.to_nat (Z.log2 num)).

(** [np.base_repr(number, base)] *)
Definition base_repr (number base : Z) : result (list ascii) :=
  if Z.of_nat (length digits) <? base then Raise ValueError
  else if base <? 2 then Raise ValueError
  else
    let num := Z.abs number in
    let res := repr_loop (repr_fuel num) base num [] in
    let res := if number <? 0 then res ++ ["-"%char] else res in
    Ok (reverse (match res with [] => ["0"%char] | _ => res end)).

(** [s.zfill(width)] *)
Definition zfill (width : Z) (s : list ascii) : list ascii :=
  let pad := replicate (Z.to_nat (width - Z.of_nat (length s))) "0"%char in
  match s with
  | c :: s' =>
      if decide (c = "+"%char ∨ c = "-"%char) then c :: pad ++ s' else pad ++ s
  | [] => pad
  end.

(** [bin(num)] *)
Definition bin (num : Z) : list ascii :=
  let body := reverse (match repr_loop (repr_fuel (Z.abs num)) 2 (Z.abs num) [] with
                       | [] => ["0"%char]
                       | res => res
                       end) in
  (if num <? 0 then ["-"%char] else []) ++ list_ascii_of_string "0b" ++ body.

Definition bits_to_int (bits : list Z) : Z :=
  foldl (λ total '(shift, j),
           if j =? 0 then total else total + Z.shiftl 1 (Z.of_nat shift))
        0 (Py.enumerate (reverse bits)).

Definition int_to_bits (num num_digits : Z) : result (list Z) :=
  converted ← mapM (M := result) (λ c, int_of_char c 10) (drop 2 (bin num));
  let before := num_digits - Z.of_nat (length converted) in
  if before <? 0 then Raise ValueError
  else Ok (replicate (Z.to_nat before) 0 ++ converted).

(** ** The rule evaluators *)

Definition nks_rule (state : list Z) (rule : Z) : result Z :=
  let state_int := bits_to_int state in
  let n := 2 ^ Z.of_nat (length state) in
  rule_bin_array ← int_to_bits rule n;
  Py.index rule_bin_array ((n - 1) - state_int).

Definition number_rule (state : list Z) (rule : Z) : result Z :=
  let state_int := bits_to_int state in
  rule_bin_array ← int_to_bits rule (2 ^ Z.of_nat (length state));
  Py.index rule_bin_array state_int.

Definition totalistic_rule (state : list Z) (k rule : Z) : result Z :=
  repr ← base_repr rule k;
  let rule_string := zfill (3 * k - 2) repr in
  if 3 * k - 2 <? Z.of_nat (length rule_string) then
    Raise (Exception "rule number out of range")
  else
    let state_sum := foldl Z.add 0 state in
    c ← Py.index rule_string ((3 * k - 3) - state_sum);
    int_of_char c k.

(** ** The random rule table generator *)

(** The outcomes of the global random generators, one per draw. *)
Record random_source : Type := {
  rand_float : nat → Q;
  rand_int : nat → nat
}.

Module Random.

(** [random.random()] *)
Definition random (src : random_source) (pos : nat) : Q * nat :=
  (rand_float src pos, S pos).

(** [random.choice(l)] *)
Definition choice {A} (src : random_source) (l : list A) (pos : nat) : result (A * nat) :=
  match l !! (rand_int src pos `mod` length l)%nat with
  | Some x => Ok (x, S pos)
  | None => Raise IndexError
  end.

(** [np.random.randint(k)] *)
Definition randint (src : random_source) (k : Z) (pos : nat) : result (Z * nat) :=
  if k <=? 0 then Raise ValueError
  else Ok (Z.of_nat (rand_int src pos) `mod` k, S pos).

End Random.

(** The loop variables of the table construction, with the position in the
    random source. *)
Record table_state : Type := {
  table : gmap (list ascii) Z;
  quiescent_state_count : Z;
  rng_pos : nat
}.

Section RandomRuleTable.

Variable src : random_source.
Variable k : Z.
Variable lambda_val : Q.
Variable quiescent_state : Z.
Variable strong_quiescence isotropic : bool.
Variable other_states : list Z.

(** [len(set(state)) == 1] *)
Definition uniform (state : list ascii) : bool :=
  bool_decide (length (remove_dups state) = 1%nat).

Definition count_if (next_state : Z) (count : Z) : Z :=
  if next_state =? quiescent_state then count + 1 else count.

(** The body of [for state in states]. *)
Definition table_step (st : table_state) (state : list ascii) : result table_state :=
  if strong_quiescence && uniform state then
    c ← Py.index state 0;
    next_state ← int_of_char c k;
    Ok {| table := <[state := next_state]> (table st);
          quiescent_state_count := count_if next_state (quiescent_state_count st);
          rng_pos := rng_pos st |}
  else
    let state_reversed := reverse state in
    if isotropic && bool_decide (is_Some (table st !! state_reversed)) then
      next_state ← of_option KeyError (table st !! state_reversed);
      Ok {| table := <[state := next_state]> (table st);
            quiescent_state_count := count_if next_state (quiescent_state_count st);
            rng_pos := rng_pos st |}
    else
      let '(u, pos) := Random.random src (rng_pos st) in
      if Qlt_le_dec u (1 - lambda_val) then
        Ok {| table := <[state := quiescent_state]> (table st);
              quiescent_state_count := quiescent_state_count st + 1;
              rng_pos := pos |}
      else
        '(next_state, pos') ← Random.choice src other_states pos;
        Ok {| table := <[state := next_state]> (table st);
              quiescent_state_count := quiescent_state_count st;
              rng_pos := pos' |}.

Fixpoint table_loop (st : table_state) (states : list (list ascii)) : result table_state :=
  match states with
  | [] => Ok st
  | state :: states' => st' ← table_step st state; table_loop st' states'
  end.

End RandomRuleTable.

(** The list [states]: [np.base_repr(i, k).zfill(n)] for [i] in
    [range(0, k**n)]. *)
Definition all_states (k n : Z) : result (list (list ascii)) :=
  if n <? 0 then Raise TypeError
  else mapM (M := result) (λ i, zfill n <$> base_repr (Z.of_nat i) k)
            (seq 0 (Z.to_nat (k ^ n))).

Definition random_rule_table (src : random_source) (k r : Z)
    (lambda_val : option Q) (quiescent_state : option Z)
    (strong_quiescence isotropic : bool) : result (gmap (list ascii) Z * Q * Z) :=
  let n := 2 * r + 1 in
  states ← all_states k n;
  lambda_val ← match lambda_val with
               | Some l => Ok l
               | None => if k =? 0 then Raise ZeroDivisionError
                         else Ok (1 - 1 / inject_Z k)%Q
               end;
  '(quiescent_state, pos) ← match quiescent_state with
                            | Some q => Ok (q, O)
                            | None => Random.randint src k O
                            end;
  if negb ((0 <=? quiescent_state) && (quiescent_state <=? k - 1)) then
    Raise (Exception "quiescent state must be a number in {0,...,k - 1}")
  else
    let other_states := filter (λ x, x ≠ quiescent_state) (seqZ 0 k) in
    st ← table_loop src k lambda_val quiescent_state strong_quiescence isotropic
           other_states
           {| table := ∅; quiescent_state_count := 0; rng_pos := pos |} states;
    if k ^ n =? 0 then Raise ZeroDivisionError
    else
      let actual_lambda_val :=
        (inject_Z (k ^ n - quiescent_state_count st) / inject_Z (k ^ n))%Q in
      Ok (table st, actual_lambda_val, quiescent_state).

(** ** Positional notation, in the words of the specification *)

(** The integer that a most-significant-first digit sequence denotes. *)
Definition digits_value (b : Z) (ds : list Z) : Z :=
  foldl (λ acc d, b * acc + d) 0 ds.

(** The most-significant-first expansion of [v] in base [b], of width [w]. *)
Fixpoint expansion (b : Z) (w : nat) (v : Z) : list Z :=
  match w with
  | O => []
  | S w' => expansion b w' (v `div` b) ++ [v `mod` b]
  end.

(** The digits of [v] without leading zeros, most significant first. *)
Fixpoint msb_digits (fuel : nat) (b v : Z) : list Z :=
  match fuel with
  | O => []
  | S fuel' => if v =? 0 then [] else msb_digits fuel' b (v `div` b) ++ [v `mod` b]
  end.

(** The elementwise complement of a binary neighborhood. *)
Definition complement (state : list Z) : list Z := (λ b, 1 - b) <$> state.

Definition binary (state : list Z) : Prop := Forall (λ b, b = 0 ∨ b = 1) state.

(** The digits of [v >= 0] as [np.base_repr] and [bin] print them: without
    leading zeros, and the single digit 0 for [v = 0]. *)
Definition natural_digits (b v : Z) : list Z :=
  match msb_digits (repr_fuel v) b v with
  | [] => [0]
  | ds => ds
  end.

(** The value that [bits_to_int] gives a cell: any non-zero cell counts as 1. *)
Definition truth (j : Z) : Z := if j =? 0 then 0 else 1.

(** The neighborhood string of width [n] whose base-[k] value is [i]. *)
Definition word (k : Z) (n : nat) (i : Z) : list ascii :=
  digit_char <$> expansion k n i.

(** The number of entries of a table that map to the state [q]. *)
Definition quiescent_entries (q : Z) (tbl : gmap (list ascii) Z) : nat :=
  size (filter (λ kv, kv.2 = q) tbl).

(** The invariant of the table construction once the strings [seen] have been
    processed: they are the keys of the table, mirror images among them have
    the same entry when [isotropic] is set, and the running count is the
    number of entries that map to the quiescent state. *)
Definition table_invariant (isotropic : bool) (q : Z) (seen : list (list ascii))
    (st : table_state) : Prop :=
  (∀ s, is_Some (table st !! s) ↔ s ∈ seen)
  ∧ (isotropic = true →
     ∀ s, s ∈ seen → reverse s ∈ seen → table st !! reverse s = table st !! s)
  ∧ quiescent_state_count st = Z.of_nat (quiescent_entries q (table st))
  ∧ size (table st) = length seen.

(** A random source for the examples: the draws of [random.random()]
    alternate between 0 and 1, the integer draws count up. *)
Definition alternating_source : random_source :=
  {| rand_float := λ p, if Nat.even p then 0%Q else 1%Q; rand_int := λ p, p |}.

(** ** The table rule *)

(** [str(x)] for an integer [x]: its decimal digits, after a minus sign when
    it is negative. *)
Definition str_of_int (x : Z) : list ascii :=
  let body := reverse (match repr_loop (repr_fuel (Z.abs x)) 10 (Z.abs x) [] with
                       | [] => ["0"%char]
                       | res => res
                       end) in
  (if x <? 0 then ["-"%char] else []) ++ body.

(** [''.join(str(x) for x in state)] *)
Definition state_repr (state : list Z) : list ascii :=
  concat (str_of_int <$> state).

Definition table_rule (state : list Z) (table : gmap (list ascii) Z) : result Z :=
  let repr := state_repr state in
  if negb (bool_decide (is_Some (table !! repr))) then
    Raise (Exception (String.append "could not find state '"
                        (String.append (string_of_list_ascii repr) "' in table")))
  else of_option KeyError (table !! repr).

(** ** The initial rows *)

(** [init_simple(size, val)] *)
Definition init_simple (size val : Z) : result (list (list Z)) :=
  if size <? 0 then Raise ValueError
  else
    let x := replicate (Z.to_nat size) 0 in
    let i := (length x / 2)%nat in
    if decide (i < length x)%nat then Ok [<[i := val]> x] else Raise IndexError.



(** ** The evolver, for a rule function that may raise *)

Section EvolveRaising.

(** The rule function, with the exception it raises if any. *)
Variable apply_rule : list Z → nat → result Z.
Variable r : nat.

(** One iteration of [for i in range(1, n_steps)]: the list comprehension
    calls the rule function cell by cell and stops at the first exception. *)
Definition evolve_step_exn (cols : nat) (array : list (list Z)) (i : nat)
    : result (list (list Z)) :=
  cells ← of_option IndexError (array !! (i - 1)%nat);
  states ← neighborhoods r cells;
  new ← mapM (M := result) (λ '(c, s), apply_rule s c) (Py.enumerate states);
  row ← Py.broadcast_row cols new;
  Ok (<[i := row]> array).

Fixpoint evolve_loop_exn (cols : nat) (array : list (list Z)) (steps : list nat)
    : result (list (list Z)) :=
  match steps with
  | [] => Ok array
  | i :: steps' => array' ← evolve_step_exn cols array i; evolve_loop_exn cols array' steps'
  end.

Definition evolve_exn (row : list Z) (n_steps : nat) : result (list (list Z)) :=
  let cols := length row in
  let array := replicate n_steps (replicate cols 0) in
  match n_steps with
  | O => Raise IndexError
  | S _ => evolve_loop_exn cols (<[0%nat := row]> array) (seq 1 (n_steps - 1))
  end.

End EvolveRaising.

(** ** Further notions for the properties of the code *)

(** The rule number whose expansion of width [2^L] is that of [rule] read
    backwards. *)
Definition mirror_rule (L : nat) (rule : Z) : Z :=
  digits_value 2 (reverse (expansion 2 (Z.to_nat (2 ^ Z.of_nat L)) rule)).

(** The cell states of a [k]-color automaton. *)
Definition cell_states (k : Z) (state : list Z) : Prop :=
  Forall (λ c, 0 ≤ c ≤ k - 1) state.

(** * Evaluation on small inputs *)

Example evolve_sum_rule :
  evolve (λ s _, foldr Z.add 0 s) 1 [0; 0; 1; 0; 0] 3
  = Ok [[0; 0; 1; 0; 0]; [0; 1; 1; 1; 0]; [1; 2; 3; 2; 1]].
Proof. vm_compute. reflexivity. Qed.

Example evolve_rule_254 :
  evolve (λ s _, default 0 (match nks_rule s 254 with Ok v => Some v | Raise _ => None end))
         1 [0; 0; 1; 0; 0] 3
  = Ok [[0; 0; 1; 0; 0]; [0; 1; 1; 1; 0]; [1; 1; 1; 1; 1]].
Proof. vm_compute. reflexivity. Qed.

Example base_repr_777 : base_repr 777 3 = Ok (list_ascii_of_string "1001210").
Proof. vm_compute. reflexivity. Qed.

Example int_to_bits_254 : int_to_bits 254 8 = Ok [1; 1; 1; 1; 1; 1; 1; 0].
Proof. vm_compute. reflexivity. Qed.

Example bits_to_int_101 : bits_to_int [1; 0; 1] = 5.
Proof. reflexivity. Qed.

Example totalistic_rule_777 : totalistic_rule [1; 1; 1] 3 777 = Ok 1.
Proof. vm_compute. reflexivity. Qed.

Example totalistic_rule_2187 :
  totalistic_rule [0; 0; 0] 3 2187 = Raise (Exception "rule number out of range").
Proof. vm_compute. reflexivity. Qed.

Example random_rule_table_invalid_quiescent_state :
  random_rule_table alternating_source 3 1 None (Some 3) false false
  = Raise (Exception "quiescent state must be a number in {0,...,k - 1}").
Proof. vm_compute. reflexivity. Qed.

Example table_rule_found_example :
  table_rule [1; 0; 1] (<[list_ascii_of_string "101" := 1]> ∅) = Ok 1.
Proof. vm_compute. reflexivity. Qed.

Example table_rule_missing_example :
  table_rule [1; 1; 1] (<[list_ascii_of_string "101" := 1]> ∅)
  = Raise (Exception "could not find state '111' in table").
Proof. vm_compute. reflexivity. Qed.

Example init_simple_5 : init_simple 5 1 = Ok [[0; 0; 1; 0; 0]].
Proof. vm_compute. reflexivity. Qed.

Example str_of_int_minus_12 : str_of_int (-12) = list_ascii_of_string "-12".
Proof. vm_compute. reflexivity. Qed.

(** Decide a comparison that a definition branches on. *)
Ltac cmp_true c tac :=
  lazymatch c with
  | (?a <? ?b) => rewrite (proj2 (Z.ltb_lt a b)) by tac
  | (?a <=? ?b) => rewrite (proj2 (Z.leb_le a b)) by tac
  end.
Ltac cmp_false c tac :=
  lazymatch c with
  | (?a <? ?b) => rewrite (proj2 (Z.ltb_ge a b)) by tac
  | (?a <=? ?b) => rewrite (proj2 (Z.leb_gt a b)) by tac
  end.

(** * Verification of the evolver *)

Section EvolveProofs.

Lemma wrap_index_unique (N : nat) (x q res : Z) :
  x = q * Z.of_nat N + res → 0 ≤ res < Z.of_nat N →
  wrap_index N x = Z.to_nat res.
Proof.
  intros Hx Hres. unfold wrap_index. f_equal.
  symmetry. apply (Z.mod_unique_pos x (Z.of_nat N) q res); lia.
Qed.

Lemma wrap_index_lt (N : nat) (x : Z) : (0 < N)%nat → (wrap_index N x < N)%nat.
Proof.
  intros HN. unfold wrap_index.
  pose proof (Z.mod_pos_bound x (Z.of_nat N)). lia.
Qed.

Lemma window_start (r : nat) : (- Z.of_nat (2 * r + 1)) `div` 2 + 1 = - Z.of_nat r.
Proof.
  assert ((- Z.of_nat (2 * r + 1)) `div` 2 = - Z.of_nat r - 1) as ->; [|lia].
  symmetry. apply (Z.div_unique_pos _ 2 _ 1); lia.
Qed.

Lemma window_half (r : nat) : ((2 * r + 1) / 2 = r)%nat.
Proof. symmetry. apply (Nat.div_unique _ 2 _ 1); lia. Qed.

(** The array that [index_strides] windows over, for [1 <= r <= N]. *)
Lemma padded_lookup (N r j : nat) :
  (r ≤ N)%nat → (j < N + 2 * r)%nat →
  (seq (N - r) r ++ seq 0 N ++ seq 0 r) !! j
  = Some (wrap_index N (Z.of_nat j - Z.of_nat r)).
Proof.
  intros Hr Hj.
  destruct (decide (j < r)%nat) as [Hlt|Hge].
  - rewrite lookup_app_l by (rewrite length_seq; lia).
    rewrite lookup_seq_lt by lia. f_equal.
    rewrite (wrap_index_unique N _ (-1) (Z.of_nat (N - r + j))); lia.
  - rewrite lookup_app_r by (rewrite length_seq; lia).
    rewrite length_seq.
    destruct (decide (j - r < N)%nat) as [Hmid|Hhi].
    + rewrite lookup_app_l by (rewrite length_seq; lia).
      rewrite lookup_seq_lt by lia. f_equal.
      rewrite (wrap_index_unique N _ 0 (Z.of_nat (j - r))); lia.
    + rewrite lookup_app_r by (rewrite length_seq; lia).
      rewrite length_seq, lookup_seq_lt by lia. f_equal.
      rewrite (wrap_index_unique N _ 1 (Z.of_nat (j - r - N))); lia.
Qed.

Lemma index_strides_arange (N r : nat) :
  (1 ≤ r ≤ N)%nat →
  index_strides (Py.arange N) (2 * r + 1)
  = Ok ((λ c, (λ t, wrap_index N (Z.of_nat c + Z.of_nat t - Z.of_nat r))
                <$> seq 0 (2 * r + 1)) <$> seq 0 N).
Proof.
  intros Hr. unfold index_strides, Py.arange.
  rewrite window_start, window_half.
  unfold Py.slice_from, Py.slice_to. rewrite !length_seq.
  replace (- Z.of_nat r <? 0) with true by lia.
  replace (Z.of_nat r <? 0) with false by lia.
  replace (Z.to_nat (Z.max (- Z.of_nat r + Z.of_nat N) 0)) with (N - r)%nat by lia.
  replace (Z.to_nat (Z.min (Z.of_nat r) (Z.of_nat N))) with r by lia.
  rewrite drop_seq, take_seq.
  replace (0 + (N - r))%nat with (N - r)%nat by lia.
  replace (N - (N - r))%nat with r by lia.
  replace (r `min` N)%nat with r by lia.
  unfold Py.as_strided. rewrite !length_app, !length_seq.
  replace (Z.of_nat (r + (N + r)) - Z.of_nat (2 * r + 1) + 1) with (Z.of_nat N) by lia.
  replace (Z.of_nat N <? 0) with false by lia.
  rewrite Nat2Z.id. f_equal.
  apply list_eq. intros c. rewrite !list_lookup_fmap.
  destruct (decide (c < N)%nat) as [Hc|Hc].
  - rewrite lookup_seq_lt by lia. simpl. f_equal.
    apply list_eq. intros t.
    rewrite list_lookup_fmap.
    destruct (decide (t < 2 * r + 1)%nat) as [Ht|Ht].
    + rewrite lookup_take_lt, lookup_drop by lia.
      rewrite padded_lookup by lia.
      rewrite lookup_seq_lt by lia. simpl. do 2 f_equal. lia.
    + rewrite lookup_take_ge by lia.
      rewrite lookup_seq_ge by lia. done.
  - rewrite lookup_seq_ge by lia. done.
Qed.

Lemma mapM_fmap_Some {A B C} (f : B → option C) (g : A → B) (h : A → C) (l : list A) :
  (∀ x, x ∈ l → f (g x) = Some (h x)) →
  mapM f (g <$> l) = Some (h <$> l).
Proof.
  induction l as [|x l IH]; intros Hl; [done|].
  cbn. rewrite Hl by left. cbn. rewrite IH; [done|].
  intros y Hy. apply Hl. by right.
Qed.

Lemma neighborhoods_spec (r : nat) (cells : list Z) :
  (1 ≤ r ≤ length cells)%nat →
  neighborhoods r cells = Ok (neighborhood r cells <$> seq 0 (length cells)).
Proof.
  intros Hr. unfold neighborhoods.
  rewrite index_strides_arange by done. cbn. unfold Py.take_indices.
  erewrite (mapM_fmap_Some _ _ (neighborhood r cells)); [done|].
  intros c _. unfold neighborhood.
  apply mapM_fmap_Some. intros t _.
  apply list_lookup_lookup_total_lt, wrap_index_lt. lia.
Qed.

Lemma enumerate_fmap {A B} (f : A → nat → B) (g : nat → A) (n : nat) :
  (λ '(c, s), f s c) <$> Py.enumerate (g <$> seq 0 n)
  = (λ c, f (g c) c) <$> seq 0 n.
Proof.
  unfold Py.enumerate. apply list_eq. intros i.
  rewrite !list_lookup_fmap, list_lookup_imap, list_lookup_fmap.
  destruct (decide (i < n)%nat).
  - by rewrite lookup_seq_lt by lia.
  - by rewrite lookup_seq_ge by lia.
Qed.

Lemma length_sync_row f r prev : length (sync_row f r prev) = length prev.
Proof. unfold sync_row. by rewrite length_fmap, length_seq. Qed.

(** The loop body, on a previous row as long as the grid is wide. *)
Lemma evolve_step_spec f (r i : nat) (array : list (list Z)) (cells : list Z) :
  (1 ≤ r ≤ length cells)%nat ∨ (r = 0%nat ∧ cells = []) →
  array !! (i - 1)%nat = Some cells →
  evolve_step f r (length cells) array i = Ok (<[i := sync_row f r cells]> array).
Proof.
  intros Hr Hprev. unfold evolve_step. rewrite Hprev. cbn.
  destruct Hr as [Hr|[-> ->]].
  - rewrite neighborhoods_spec by done. cbn.
    rewrite enumerate_fmap. fold (sync_row f r cells).
    unfold Py.broadcast_row.
    rewrite decide_True by apply length_sync_row. done.
  - reflexivity.
Qed.



(** The loop over the steps [a, a + m): earlier rows are left as they are,
    each new row is the synchronous update of the row before it. *)
Lemma evolve_loop_spec f (r cols m : nat) :
  m = 0%nat ∨ supported_radius r cols →
  ∀ (a : nat) (array : list (list Z)),
    (1 ≤ a)%nat → (a + m ≤ length array)%nat →
    Forall (λ row, length row = cols) array →
    ∃ g, evolve_loop f r cols array (seq a m) = Ok g
         ∧ length g = length array
         ∧ Forall (λ row, length row = cols) g
         ∧ (∀ i, (i < a)%nat → g !! i = array !! i)
         ∧ (∀ i, (a ≤ i < a + m)%nat →
              ∃ prev, g !! (i - 1)%nat = Some prev ∧ g !! i = Some (sync_row f r prev)).
Proof.
  induction m as [|m IH]; intros Hgood a array Ha Hlen Hrows.
  - exists array. cbn. repeat split; try done. intros i Hi. lia.
  - destruct Hgood as [?|Hr]; [done|].
    destruct (lookup_lt_is_Some_2 array (a - 1)) as [cells Hcells]; [lia|].
    assert (length cells = cols) as Hc.
    { eapply (Forall_lookup_1 _ _ _ _ Hrows Hcells). }
    assert (evolve_step f r cols array a = Ok (<[a := sync_row f r cells]> array)) as Hstep.
    { subst cols. apply evolve_step_spec; [|done].
      destruct Hr as [?|[-> Hnil]]; [by left|right].
      split; [done|]. by apply nil_length_inv. }
    destruct (IH (or_intror Hr) (S a) (<[a := sync_row f r cells]> array))
      as (g & Hg & Hglen & Hgrows & Hbefore & Hnew).
    { lia. }
    { rewrite length_insert. lia. }
    { apply Forall_insert; [done|]. by rewrite length_sync_row. }
    exists g. cbn [seq evolve_loop]. rewrite Hstep. cbn.
    rewrite length_insert in Hglen.
    repeat split; try done.
    + intros i Hi. rewrite Hbefore by lia.
      apply list_lookup_insert_ne. lia.
    + intros i Hi. destruct (decide (i = a)) as [->|Hne].
      * exists cells. rewrite !Hbefore by lia.
        rewrite list_lookup_insert_ne by lia.
        rewrite list_lookup_insert_eq by lia. done.
      * apply Hnew. lia.
Qed.

Lemma initial_array_rows (row : list Z) (n : nat) :
  Forall (λ row', length row' = length row)
         (<[0%nat := row]> (replicate n (replicate (length row) 0))).
Proof.
  destruct n as [|n]; cbn; [done|].
  constructor; [done|].
  apply Forall_replicate. by rewrite length_replicate.
Qed.

Lemma evolve_spec f (r n : nat) (row : list Z) :
  (1 ≤ n)%nat →
  n = 1%nat ∨ supported_radius r (length row) →
  ∃ g, evolve f r row n = Ok g
       ∧ length g = n
       ∧ Forall (λ row', length row' = length row) g
       ∧ g !! 0%nat = Some row
       ∧ (∀ i, (1 ≤ i < n)%nat →
            ∃ prev, g !! (i - 1)%nat = Some prev ∧ g !! i = Some (sync_row f r prev)).
Proof.
  intros Hn Hgood. destruct n as [|n]; [lia|].
  unfold evolve.
  destruct (evolve_loop_spec f r (length row) (S n - 1)
              (ltac:(destruct Hgood; [left; lia|by right])) 1
              (<[0%nat := row]> (replicate (S n) (replicate (length row) 0))))
    as (g & Hg & Hglen & Hgrows & Hbefore & Hnew).
  { lia. }
  { rewrite length_insert, length_replicate. lia. }
  { apply initial_array_rows. }
  exists g. rewrite length_insert, length_replicate in Hglen.
  repeat split; try done.
  - rewrite Hbefore by lia. done.
  - intros i Hi. apply Hnew. lia.
Qed.


End EvolveProofs.






(** C3, as stated for every radius [r <= N], fails for radius 0 on a
    non-empty row: the windows are then cut from the row twice over, and the
    assignment of [2N] values to a grid row of length [N] is refused. *)
Lemma C3_radius_0_counterexample :
  (0 ≤ length [0; 0; 1])%nat
  ∧ evolve (λ _ _, 0) 0 [0; 0; 1] 2 = Raise ValueError.
Proof. split; [cbn; lia|vm_compute; reflexivity]. Qed.

(** C3, amended. Grid shape: for every initial row of length [N], every
    [n_steps >= 1], every radius [1 <= r <= N] and every rule function,
    [evolve] returns a grid of exactly [n_steps] rows, each of length [N],
    whose row 0 is the initial row. *)
Theorem C3_grid_shape (f : list Z → nat → Z) (r : nat) (init : list Z) (n_steps : nat) :
  (1 ≤ n_steps)%nat → (1 ≤ r ≤ length init)%nat →
  ∃ g, evolve f r init n_steps = Ok g
       ∧ length g = n_steps
       ∧ Forall (λ row, length row = length init) g
       ∧ g !! 0%nat = Some init.
Proof.
  intros Hn Hr.
  destruct (evolve_spec f r n_steps init Hn) as (g & Hg & Hlen & Hrows & H0 & _).
  { right. by left. }
  by exists g.
Qed.

Lemma C3_grid_shape_witness :
  ∃ g, evolve (λ s _, foldr Z.add 0 s) 1 [0; 0; 1; 0; 0] 3 = Ok g
       ∧ length g = 3%nat
       ∧ Forall (λ row, length row = length [0; 0; 1; 0; 0]) g
       ∧ g !! 0%nat = Some [0; 0; 1; 0; 0].
Proof.
  apply (C3_grid_shape (λ s _, foldr Z.add 0 s) 1 [0; 0; 1; 0; 0] 3); simpl; lia.
Defined.

(** * Positional notation *)

Section Positional.

Variable b : Z.
Hypothesis Hb : 2 ≤ b.

Lemma digits_value_app ds d :
  digits_value b (ds ++ [d]) = b * digits_value b ds + d.
Proof. unfold digits_value. by rewrite foldl_app. Qed.

Lemma length_expansion w v : length (expansion b w v) = w.
Proof.
  revert v. induction w as [|w IH]; intros v; [done|].
  cbn. rewrite length_app, IH. cbn. lia.
Qed.

Lemma expansion_lookup w v p :
  (p < w)%nat →
  expansion b w v !! p = Some ((v `div` b ^ Z.of_nat (w - 1 - p)) `mod` b).
Proof.
  revert v p. induction w as [|w IH]; intros v p Hp; [lia|].
  cbn [expansion]. destruct (decide (p = w)) as [->|Hne].
  - rewrite lookup_app_r by (rewrite length_expansion; lia).
    rewrite length_expansion, Nat.sub_diag.
    replace (S w - 1 - w)%nat with 0%nat by lia.
    cbn. by rewrite Z.div_1_r.
  - rewrite lookup_app_l by (rewrite length_expansion; lia).
    rewrite IH by lia. do 2 f_equal.
    replace (Z.of_nat (S w - 1 - p)) with (Z.succ (Z.of_nat (w - 1 - p))) by lia.
    rewrite Z.pow_succ_r by lia.
    rewrite Z.div_div by (try apply Z.pow_pos_nonneg; lia). done.
Qed.

Lemma expansion_range w v : Forall (λ d, 0 ≤ d < b) (expansion b w v).
Proof.
  revert v. induction w as [|w IH]; intros v; [constructor|].
  cbn. apply Forall_app. split; [apply IH|].
  constructor; [|constructor]. apply Z.mod_pos_bound. lia.
Qed.

Lemma expansion_0 w : expansion b w 0 = replicate w 0.
Proof.
  induction w as [|w IH]; [done|].
  cbn [expansion]. rewrite Z.div_0_l, Z.mod_0_l, IH by lia.
  by rewrite replicate_S_end.
Qed.

Lemma digits_value_expansion w v :
  0 ≤ v → digits_value b (expansion b w v) = v `mod` b ^ Z.of_nat w.
Proof.
  revert v. induction w as [|w IH]; intros v Hv.
  - cbn. by rewrite Z.mod_1_r.
  - cbn [expansion]. rewrite digits_value_app, IH by (apply Z.div_pos; lia).
    rewrite Nat2Z.inj_succ, Z.pow_succ_r by lia.
    rewrite Z.rem_mul_r by (try apply Z.pow_nonzero; lia). lia.
Qed.

Lemma digits_value_range ds :
  Forall (λ d, 0 ≤ d < b) ds →
  0 ≤ digits_value b ds < b ^ Z.of_nat (length ds).
Proof.
  induction ds as [|d ds IH] using rev_ind; intros Hds.
  - cbn. lia.
  - apply Forall_app in Hds as [Hds Hd]. rewrite Forall_singleton in Hd.
    rewrite digits_value_app, length_app. cbn [length].
    replace (Z.of_nat (length ds + 1)) with (Z.succ (Z.of_nat (length ds))) by lia.
    rewrite Z.pow_succ_r by lia. specialize (IH Hds).
    nia.
Qed.

Lemma expansion_digits_value ds :
  Forall (λ d, 0 ≤ d < b) ds →
  expansion b (length ds) (digits_value b ds) = ds.
Proof.
  induction ds as [|d ds IH] using rev_ind; intros Hds; [done|].
  apply Forall_app in Hds as [Hds Hd]. rewrite Forall_singleton in Hd.
  rewrite digits_value_app, length_app. cbn [length].
  replace (length ds + 1)%nat with (S (length ds)) by lia.
  cbn [expansion].
  replace ((b * digits_value b ds + d) `div` b) with (digits_value b ds)
    by (apply (Z.div_unique_pos _ b _ d); lia).
  replace ((b * digits_value b ds + d) `mod` b) with d
    by (apply (Z.mod_unique_pos _ b (digits_value b ds) d); lia).
  by rewrite IH.
Qed.

Lemma repr_fuel_enough v : 0 ≤ v → v < 2 ^ Z.of_nat (repr_fuel v).
Proof.
  intros Hv. unfold repr_fuel.
  rewrite Nat2Z.inj_succ, Z2Nat.id by apply Z.log2_nonneg.
  destruct (decide (v = 0)) as [->|Hne]; [done|].
  apply Z.log2_spec. lia.
Qed.

Lemma div_fuel v fuel : 0 ≤ v < 2 ^ Z.of_nat (S fuel) → v `div` b < 2 ^ Z.of_nat fuel.
Proof.
  rewrite Nat2Z.inj_succ, Z.pow_succ_r by lia. intros Hv.
  apply Z.div_lt_upper_bound; [lia|].
  assert (0 < 2 ^ Z.of_nat fuel) by (apply Z.pow_pos_nonneg; lia). nia.
Qed.

(** The digits without leading zeros, padded with zeros on the left, are the
    expansion of the width padded to. *)
Lemma msb_digits_expansion w v fuel :
  0 ≤ v < b ^ Z.of_nat w → v < 2 ^ Z.of_nat fuel →
  (length (msb_digits fuel b v) ≤ w)%nat
  ∧ replicate (w - length (msb_digits fuel b v)) 0 ++ msb_digits fuel b v
    = expansion b w v.
Proof.
  revert v fuel. induction w as [|w IH]; intros v fuel Hv Hfuel.
  - assert (v = 0) as -> by (cbn in Hv; lia).
    destruct fuel; cbn; split; done.
  - destruct (decide (v = 0)) as [->|Hne].
    { assert (msb_digits fuel b 0 = []) as -> by (by destruct fuel).
      cbn [length]. split; [lia|].
      by rewrite app_nil_r, Nat.sub_0_r, expansion_0. }
    destruct fuel as [|fuel]; [cbn in Hfuel; lia|].
    cbn [msb_digits expansion]. rewrite (proj2 (Z.eqb_neq v 0)) by done.
    rewrite Nat2Z.inj_succ, Z.pow_succ_r in Hv by lia.
    destruct (IH (v `div` b) fuel) as [Hlen Heq].
    { split; [apply Z.div_pos; lia|]. apply Z.div_lt_upper_bound; lia. }
    { apply div_fuel. lia. }
    rewrite length_app. cbn [length]. split; [lia|].
    rewrite app_assoc. f_equal. rewrite <- Heq. do 2 f_equal. lia.
Qed.

Lemma msb_digits_bound fuel v :
  0 ≤ v < 2 ^ Z.of_nat fuel → v < b ^ Z.of_nat (length (msb_digits fuel b v)).
Proof.
  revert v. induction fuel as [|fuel IH]; intros v Hv.
  - cbn in *. lia.
  - cbn [msb_digits]. destruct (Z.eqb_spec v 0) as [->|Hne]; [done|].
    rewrite length_app. cbn [length].
    replace (Z.of_nat (length (msb_digits fuel b (v `div` b)) + 1))
      with (Z.succ (Z.of_nat (length (msb_digits fuel b (v `div` b))))) by lia.
    rewrite Z.pow_succ_r by lia.
    assert (v `div` b < b ^ Z.of_nat (length (msb_digits fuel b (v `div` b)))) as Hq.
    { apply IH. split; [apply Z.div_pos; lia|]. apply div_fuel. lia. }
    pose proof (Z.mul_succ_div_gt v b ltac:(lia)). nia.
Qed.

Lemma msb_digits_range fuel v : Forall (λ d, 0 ≤ d < b) (msb_digits fuel b v).
Proof.
  revert v. induction fuel as [|fuel IH]; intros v; [constructor|].
  cbn. destruct (v =? 0); [constructor|].
  apply Forall_app. split; [apply IH|].
  constructor; [|constructor]. apply Z.mod_pos_bound. lia.
Qed.

Lemma msb_digits_nonempty fuel v :
  0 < v < 2 ^ Z.of_nat fuel → msb_digits fuel b v ≠ [].
Proof.
  intros Hv. destruct fuel; [cbn in Hv; lia|].
  cbn. rewrite (proj2 (Z.eqb_neq v 0)) by lia.
  by destruct (msb_digits fuel b (v `div` b)).
Qed.

(** The loop of [np.base_repr] collects the characters of these digits,
    least significant first. *)
Lemma repr_loop_msb fuel v res :
  reverse (repr_loop fuel b v res)
  = (digit_char <$> msb_digits fuel b v) ++ reverse res.
Proof.
  revert v res. induction fuel as [|fuel IH]; intros v res; [done|].
  cbn [repr_loop msb_digits]. destruct (v =? 0); [done|].
  rewrite IH, reverse_app, fmap_app, <- app_assoc. done.
Qed.

End Positional.

(** * Digits as characters *)

Lemma digit_value_char d : 0 ≤ d < 36 → digit_value (digit_char d) = Some d.
Proof.
  intros Hd. rewrite <- (Z2Nat.id d) by lia.
  assert (Z.to_nat d < 36)%nat as Hn by lia.
  generalize dependent (Z.to_nat d). clear d Hd. intros n Hn.
  do 36 (destruct n as [|n]; [reflexivity|]). lia.
Qed.

Lemma int_of_char_digit d base :
  2 ≤ base ≤ 36 → 0 ≤ d < base → int_of_char (digit_char d) base = Ok d.
Proof.
  intros Hbase Hd. unfold int_of_char.
  rewrite digit_value_char by lia.
  replace (base =? 0) with false by lia.
  replace (2 <=? base) with true by lia.
  replace (base <=? 36) with true by lia.
  cbn. by replace (d <? base) with true by lia.
Qed.

Lemma digit_char_inj d1 d2 :
  0 ≤ d1 < 36 → 0 ≤ d2 < 36 → digit_char d1 = digit_char d2 → d1 = d2.
Proof.
  intros H1 H2 Heq.
  apply (f_equal digit_value) in Heq.
  rewrite !digit_value_char in Heq by done. congruence.
Qed.

Lemma mapM_result_fmap {A B} (f : B → result A) (g : A → B) (l : list A) :
  Forall (λ x, f (g x) = Ok x) l → mapM f (g <$> l) = Ok l.
Proof.
  induction 1 as [|x l Hx _ IH]; [done|].
  cbn. rewrite Hx. cbn. rewrite IH. done.
Qed.

Section Natural.

Variable b : Z.
Hypothesis Hb : 2 ≤ b.

Lemma natural_digits_range v : Forall (λ d, 0 ≤ d < b) (natural_digits b v).
Proof.
  unfold natural_digits.
  pose proof (msb_digits_range b Hb (repr_fuel v) v) as H.
  destruct (msb_digits (repr_fuel v) b v); [|done].
  constructor; [lia|constructor].
Qed.

Lemma natural_digits_pad (w : nat) v :
  (1 ≤ w)%nat → 0 ≤ v < b ^ Z.of_nat w →
  (length (natural_digits b v) ≤ w)%nat
  ∧ replicate (w - length (natural_digits b v)) 0 ++ natural_digits b v
    = expansion b w v.
Proof.
  intros Hw Hv. unfold natural_digits.
  destruct (msb_digits_expansion b Hb w v (repr_fuel v) Hv) as [Hlen Heq].
  { apply repr_fuel_enough. lia. }
  destruct (msb_digits (repr_fuel v) b v) as [|d ds]; [|done].
  cbn [length] in *. split; [lia|].
  rewrite <- Heq, app_nil_r, Nat.sub_0_r.
  destruct w as [|w]; [lia|].
  rewrite replicate_S_end. do 2 f_equal. lia.
Qed.

Lemma natural_digits_bound v :
  0 ≤ v → v < b ^ Z.of_nat (length (natural_digits b v)).
Proof.
  intros Hv. unfold natural_digits.
  pose proof (msb_digits_bound b Hb (repr_fuel v) v) as Hbound.
  pose proof (repr_fuel_enough v Hv).
  destruct (msb_digits (repr_fuel v) b v) as [|d ds]; [|apply Hbound; lia].
  cbn in *. lia.
Qed.

(** The representation needs more than [w] digits exactly from [b^w] on. *)
Lemma natural_digits_length (w : nat) v :
  (1 ≤ w)%nat → 0 ≤ v →
  (w < length (natural_digits b v))%nat ↔ b ^ Z.of_nat w ≤ v.
Proof.
  intros Hw Hv. split.
  - intros Hlen. destruct (Z.le_gt_cases (b ^ Z.of_nat w) v) as [|Hlt]; [done|].
    destruct (natural_digits_pad w v); [done|lia|lia].
  - intros Hle. pose proof (natural_digits_bound v Hv) as Hbound.
    destruct (Nat.lt_ge_cases w (length (natural_digits b v))) as [|Hge]; [done|].
    assert (b ^ Z.of_nat (length (natural_digits b v)) ≤ b ^ Z.of_nat w)
      by (apply Z.pow_le_mono_r; lia).
    lia.
Qed.

Lemma base_repr_nonneg v :
  b ≤ 36 → 0 ≤ v → base_repr v b = Ok (digit_char <$> natural_digits b v).
Proof.
  intros Hb36 Hv. unfold base_repr.
  change (Z.of_nat (length digits)) with 36.
  replace (36 <? b) with false by lia.
  replace (b <? 2) with false by lia.
  replace (v <? 0) with false by lia.
  rewrite Z.abs_eq by done. f_equal. unfold natural_digits.
  pose proof (repr_loop_msb b (repr_fuel v) v []) as Hrev.
  rewrite app_nil_r in Hrev.
  destruct (repr_loop (repr_fuel v) b v []) as [|c res] eqn:Hloop.
  - destruct (msb_digits (repr_fuel v) b v); [done|]. discriminate.
  - rewrite Hrev. destruct (msb_digits (repr_fuel v) b v); [|done].
    apply (f_equal length) in Hrev.
    rewrite length_reverse in Hrev. discriminate.
Qed.

End Natural.

Lemma bin_nonneg v :
  0 ≤ v → bin v = list_ascii_of_string "0b" ++ (digit_char <$> natural_digits 2 v).
Proof.
  intros Hv. unfold bin.
  replace (v <? 0) with false by lia.
  rewrite Z.abs_eq by done. cbn [app]. do 2 f_equal. unfold natural_digits.
  pose proof (repr_loop_msb 2 (repr_fuel v) v []) as Hrev.
  rewrite app_nil_r in Hrev.
  destruct (repr_loop (repr_fuel v) 2 v []) as [|c res] eqn:Hloop.
  - destruct (msb_digits (repr_fuel v) 2 v); [done|]. discriminate.
  - rewrite Hrev. destruct (msb_digits (repr_fuel v) 2 v); [|done].
    apply (f_equal length) in Hrev.
    rewrite length_reverse in Hrev. discriminate.
Qed.

(** * The binary codec *)

Lemma int_to_bits_expansion (w : nat) v :
  (1 ≤ w)%nat → 0 ≤ v < 2 ^ Z.of_nat w →
  int_to_bits v (Z.of_nat w) = Ok (expansion 2 w v).
Proof.
  intros Hw Hv. unfold int_to_bits.
  rewrite bin_nonneg by lia.
  change (drop 2 (list_ascii_of_string "0b" ++ ?l)) with l.
  rewrite mapM_result_fmap.
  2:{ eapply Forall_impl; [apply (natural_digits_range 2); lia|].
      intros d Hd. cbn beta in Hd. apply int_of_char_digit; lia. }
  cbn.
  destruct (natural_digits_pad 2 ltac:(lia) w v Hw Hv) as [Hlen Heq].
  replace (Z.of_nat w - Z.of_nat (length (natural_digits 2 v)) <? 0) with false by lia.
  rewrite <- Heq. do 3 f_equal. lia.
Qed.

Lemma bits_to_int_fold (l : list Z) (start : nat) (acc : Z) :
  foldl (λ total '(shift, j),
           if j =? 0 then total else total + Z.shiftl 1 (Z.of_nat shift))
        acc (imap (λ i x, ((start + i)%nat, x)) l)
  = acc + 2 ^ Z.of_nat start * digits_value 2 (truth <$> reverse l).
Proof.
  revert start acc. induction l as [|j l IH]; intros start acc.
  - cbn. lia.
  - cbn [imap foldl].
    rewrite (imap_ext _ (λ i x, ((S start + i)%nat, x))) by (intros; cbn; f_equal; lia).
    rewrite IH, reverse_cons, fmap_app. cbn [fmap list_fmap].
    rewrite digits_value_app, Nat.add_0_r, Z.shiftl_1_l.
    rewrite Nat2Z.inj_succ, Z.pow_succ_r by lia.
    unfold truth. destruct (j =? 0); lia.
Qed.

Lemma bits_to_int_value bits : bits_to_int bits = digits_value 2 (truth <$> bits).
Proof.
  unfold bits_to_int, Py.enumerate.
  rewrite (imap_ext _ (λ i x, ((0 + i)%nat, x))) by done.
  rewrite bits_to_int_fold, reverse_involutive. cbn. 
  destruct (digits_value 2 (truth <$> bits)); done.
Qed.

Lemma truth_binary state : binary state → truth <$> state = state.
Proof.
  induction 1 as [|j l [-> | ->] _ IH]; [done|..]; cbn; by rewrite IH.
Qed.

Lemma binary_range state : binary state → Forall (λ d, 0 ≤ d < 2) state.
Proof. intros H. eapply Forall_impl; [exact H|]. cbn. lia. Qed.

Lemma range_binary state : Forall (λ d, 0 ≤ d < 2) state → binary state.
Proof. intros H. eapply Forall_impl; [exact H|]. cbn. lia. Qed.

Lemma bits_to_int_binary state :
  binary state → bits_to_int state = digits_value 2 state.
Proof. intros H. by rewrite bits_to_int_value, truth_binary. Qed.

(** * The binary rules *)

Section BinaryRules.

Variable state : list Z.
Variable rule : Z.
Hypothesis Hstate : binary state.
Hypothesis Hrule : 0 ≤ rule < 2 ^ (2 ^ Z.of_nat (length state)).

(** The number of rule bits, [2 ** len(state)], as a list length. *)
Let w : nat := Z.to_nat (2 ^ Z.of_nat (length state)).

Lemma rule_width : Z.of_nat w = 2 ^ Z.of_nat (length state) ∧ (1 ≤ w)%nat.
Proof.
  subst w. assert (0 < 2 ^ Z.of_nat (length state)) by (apply Z.pow_pos_nonneg; lia).
  lia.
Qed.

Lemma state_value_range :
  0 ≤ digits_value 2 state < 2 ^ Z.of_nat (length state).
Proof. apply digits_value_range; [lia|]. by apply binary_range. Qed.

Lemma rule_bits_expansion :
  int_to_bits rule (2 ^ Z.of_nat (length state)) = Ok (expansion 2 w rule).
Proof.
  destruct rule_width as [Hw H1]. rewrite <- Hw.
  apply int_to_bits_expansion; [done|]. by rewrite Hw.
Qed.

Lemma number_rule_lookup :
  number_rule state rule
  = of_option IndexError (expansion 2 w rule !! Z.to_nat (digits_value 2 state)).
Proof.
  unfold number_rule. rewrite rule_bits_expansion. cbn.
  rewrite bits_to_int_binary by done.
  destruct rule_width as [Hw H1]. pose proof state_value_range.
  unfold Py.index. rewrite length_expansion.
  replace (0 <=? digits_value 2 state) with true by lia.
  by replace (digits_value 2 state <? Z.of_nat w) with true by lia.
Qed.

Lemma nks_rule_lookup :
  nks_rule state rule
  = of_option IndexError
      (expansion 2 w rule !! (w - 1 - Z.to_nat (digits_value 2 state))%nat).
Proof.
  unfold nks_rule. rewrite rule_bits_expansion. cbn.
  rewrite bits_to_int_binary by done.
  destruct rule_width as [Hw H1]. pose proof state_value_range.
  unfold Py.index. rewrite length_expansion.
  replace (0 <=? 2 ^ Z.of_nat (length state) - 1 - digits_value 2 state)
    with true by lia.
  replace (2 ^ Z.of_nat (length state) - 1 - digits_value 2 state <? Z.of_nat w)
    with true by lia.
  cbn. do 2 f_equal. lia.
Qed.

Lemma number_rule_value :
  number_rule state rule
  = Ok ((rule `div` 2 ^ (2 ^ Z.of_nat (length state) - 1 - digits_value 2 state)) `mod` 2).
Proof.
  rewrite number_rule_lookup.
  destruct rule_width as [Hw H1]. pose proof state_value_range.
  rewrite expansion_lookup by lia. cbn. do 4 f_equal. lia.
Qed.

Lemma nks_rule_value :
  nks_rule state rule = Ok ((rule `div` 2 ^ digits_value 2 state) `mod` 2).
Proof.
  rewrite nks_rule_lookup.
  destruct rule_width as [Hw H1]. pose proof state_value_range.
  rewrite expansion_lookup by lia. cbn. do 4 f_equal. lia.
Qed.

End BinaryRules.

Lemma binary_complement state : binary state → binary (complement state).
Proof.
  unfold binary, complement. intros H. apply Forall_fmap.
  eapply Forall_impl; [exact H|]. cbn. lia.
Qed.

Lemma complement_value state :
  binary state →
  digits_value 2 (complement state)
  = 2 ^ Z.of_nat (length state) - 1 - digits_value 2 state.
Proof.
  unfold complement.
  induction state as [|j state IH] using rev_ind; intros Hstate; [done|].
  apply Forall_app in Hstate as [Hstate Hj]. rewrite Forall_singleton in Hj.
  rewrite fmap_app. cbn [fmap list_fmap].
  rewrite !digits_value_app, IH, length_app by done. cbn [length].
  replace (Z.of_nat (length state + 1)) with (Z.succ (Z.of_nat (length state))) by lia.
  rewrite Z.pow_succ_r by lia. lia.
Qed.

Lemma all_ones_value (n : nat) : digits_value 2 (replicate n 1) = 2 ^ Z.of_nat n - 1.
Proof.
  induction n as [|n IH]; [done|].
  rewrite replicate_S_end, digits_value_app, IH.
  rewrite Nat2Z.inj_succ, Z.pow_succ_r by lia. lia.
Qed.

Lemma bounded_search (P : nat → Prop) (n : nat) :
  (∀ p, Decision (P p)) →
  ¬ (∀ p, (p < n)%nat → P p) → ∃ p, (p < n)%nat ∧ ¬ P p.
Proof.
  intros Hdec. induction n as [|n IH]; intros Hnot.
  - exfalso. apply Hnot. intros p Hp. lia.
  - destruct (Hdec n) as [Hn|Hn]; [|exists n; split; [lia|done]].
    destruct IH as (p & Hp & HP).
    { intros Hall. apply Hnot. intros p Hp.
      destruct (decide (p = n)) as [->|]; [done|]. apply Hall. lia. }
    exists p. split; [lia|done].
Qed.

(** C4. NKS decoding: for a binary neighborhood of length [L >= 1] with
    most-significant-first value [s] and a rule number in [[0, 2^(2^L))],
    [nks_rule] returns the bit at position [2^L - 1 - s] of the
    most-significant-first expansion of the rule number of width [2^L],
    that is [floor(rule / 2^s) mod 2]; the neighborhood of ones gets the
    leftmost bit of the expansion.  For [L = 3] and rule 254 the neighborhood
    of ones gives 1 and that of zeros gives 0. *)
Theorem C4_nks_decoding (state : list Z) (rule : Z) :
  binary state → (1 ≤ length state)%nat →
  0 ≤ rule < 2 ^ (2 ^ Z.of_nat (length state)) →
  (∃ rule_bits,
     int_to_bits rule (2 ^ Z.of_nat (length state)) = Ok rule_bits
     ∧ Z.of_nat (length rule_bits) = 2 ^ Z.of_nat (length state)
     ∧ (∀ p, 0 ≤ p < 2 ^ Z.of_nat (length state) →
          rule_bits !! Z.to_nat p
          = Some ((rule `div` 2 ^ (2 ^ Z.of_nat (length state) - 1 - p)) `mod` 2))
     ∧ nks_rule state rule
       = of_option IndexError
           (rule_bits !! Z.to_nat (2 ^ Z.of_nat (length state) - 1 - digits_value 2 state))
     ∧ (state = replicate (length state) 1 →
          nks_rule state rule = of_option IndexError (rule_bits !! 0%nat)))
  ∧ nks_rule state rule = Ok ((rule `div` 2 ^ digits_value 2 state) `mod` 2)
  ∧ nks_rule [1; 1; 1] 254 = Ok 1
  ∧ nks_rule [0; 0; 0] 254 = Ok 0.
Proof.
  intros Hstate HL Hrule.
  destruct (rule_width state) as [Hw H1].
  pose proof (state_value_range state Hstate) as Hs.
  split; [|split; [by apply nks_rule_value|split; reflexivity]].
  eexists. split; [by apply rule_bits_expansion|].
  rewrite length_expansion. split; [done|]. split; [|split].
  - intros p Hp. rewrite expansion_lookup by lia. do 4 f_equal. lia.
  - rewrite nks_rule_lookup by done. do 2 f_equal. lia.
  - intros Hones. rewrite nks_rule_lookup by done. do 2 f_equal.
    rewrite Hones at 2. rewrite all_ones_value. lia.
Qed.

Lemma C4_nks_decoding_witness :
  nks_rule [1; 0; 1] 110 = Ok ((110 `div` 2 ^ digits_value 2 [1; 0; 1]) `mod` 2).
Proof.
  apply (C4_nks_decoding [1; 0; 1] 110).
  - repeat (constructor; [cbn; lia|]). constructor.
  - simpl. lia.
  - simpl. lia.
Defined.

(** C5. NKS versus lexicographic duality: for a binary neighborhood of length
    [L] with value [s] and a rule number in [[0, 2^(2^L))], [number_rule]
    returns the bit at position [s] of the expansion that [nks_rule] reads at
    position [2^L - 1 - s]; so [nks_rule] on a neighborhood equals
    [number_rule] on its elementwise complement, whose value is
    [2^L - 1 - s]; and when the expansion is not a palindrome the two rules
    differ on some neighborhood of that length. *)
Theorem C5_nks_number_duality (state : list Z) (rule : Z) :
  binary state →
  0 ≤ rule < 2 ^ (2 ^ Z.of_nat (length state)) →
  ∃ rule_bits,
    int_to_bits rule (2 ^ Z.of_nat (length state)) = Ok rule_bits
    ∧ number_rule state rule
      = of_option IndexError (rule_bits !! Z.to_nat (digits_value 2 state))
    ∧ nks_rule state rule
      = of_option IndexError
          (rule_bits !! Z.to_nat (2 ^ Z.of_nat (length state) - 1 - digits_value 2 state))
    ∧ number_rule state rule
      = Ok ((rule `div` 2 ^ (2 ^ Z.of_nat (length state) - 1 - digits_value 2 state)) `mod` 2)
    ∧ digits_value 2 (complement state)
      = 2 ^ Z.of_nat (length state) - 1 - digits_value 2 state
    ∧ nks_rule state rule = number_rule (complement state) rule
    ∧ (rule_bits ≠ reverse rule_bits →
       ∃ state', binary state' ∧ length state' = length state
                 ∧ nks_rule state' rule ≠ number_rule state' rule).
Proof.
  intros Hstate Hrule.
  destruct (rule_width state) as [Hw H1].
  pose proof (state_value_range state Hstate) as Hs.
  eexists. split; [by apply rule_bits_expansion|].
  split; [by apply number_rule_lookup|].
  split; [rewrite nks_rule_lookup by done; do 2 f_equal; lia|].
  split; [by apply number_rule_value|].
  split; [by apply complement_value|].
  split.
  - rewrite nks_rule_value by done.
    assert (length (complement state) = length state) as Hlen
      by apply length_fmap.
    rewrite number_rule_value; rewrite ?Hlen; [|by apply binary_complement|done].
    rewrite complement_value by done. do 4 f_equal. lia.
  - set (e := expansion 2 (Z.to_nat (2 ^ Z.of_nat (length state))) rule).
    intros Hpal.
    destruct (bounded_search (λ p, e !! p = reverse e !! p)
                (Z.to_nat (2 ^ Z.of_nat (length state))))
      as (p & Hp & Hneq).
    { intros p. apply _. }
    { intros Hall. apply Hpal. apply list_eq. intros p.
      destruct (decide (p < Z.to_nat (2 ^ Z.of_nat (length state)))%nat) as [Hlt|Hge].
      - by apply Hall.
      - rewrite !lookup_ge_None_2; [done|..];
          rewrite ?length_reverse; unfold e; rewrite length_expansion; lia. }
    rewrite reverse_lookup in Hneq by (unfold e; rewrite length_expansion; lia).
    unfold e in Hneq. rewrite length_expansion in Hneq.
    set (state' := expansion 2 (length state) (Z.of_nat p)).
    assert (length state' = length state) as Hlen' by apply length_expansion.
    assert (binary state') as Hbin'.
    { apply range_binary, expansion_range. lia. }
    assert (digits_value 2 state' = Z.of_nat p) as Hval'.
    { unfold state'. rewrite digits_value_expansion by lia.
      apply Z.mod_small. lia. }
    exists state'. split; [done|]. split; [done|].
    rewrite nks_rule_lookup, number_rule_lookup; rewrite ?Hlen'; try done.
    rewrite Hval', Nat2Z.id.
    replace (Z.to_nat (2 ^ Z.of_nat (length state)) - 1 - p)%nat
      with (Z.to_nat (2 ^ Z.of_nat (length state)) - S p)%nat by lia.
    intros Heq. apply Hneq.
    destruct (lookup_lt_is_Some_2 (expansion 2 (Z.to_nat (2 ^ Z.of_nat (length state))) rule) p)
      as [x Hx]; [rewrite length_expansion; lia|].
    destruct (lookup_lt_is_Some_2 (expansion 2 (Z.to_nat (2 ^ Z.of_nat (length state))) rule)
                (Z.to_nat (2 ^ Z.of_nat (length state)) - S p))
      as [y Hy]; [rewrite length_expansion; lia|].
    rewrite Hx, Hy in *. cbn in Heq. congruence.
Qed.

Lemma C5_nks_number_duality_witness :
  ∃ rule_bits,
    int_to_bits 110 (2 ^ Z.of_nat (length [1; 1; 0])) = Ok rule_bits
    ∧ number_rule [1; 1; 0] 110
      = of_option IndexError (rule_bits !! Z.to_nat (digits_value 2 [1; 1; 0]))
    ∧ nks_rule [1; 1; 0] 110
      = of_option IndexError
          (rule_bits !! Z.to_nat (2 ^ Z.of_nat (length [1; 1; 0]) - 1 - digits_value 2 [1; 1; 0]))
    ∧ number_rule [1; 1; 0] 110
      = Ok ((110 `div` 2 ^ (2 ^ Z.of_nat (length [1; 1; 0]) - 1 - digits_value 2 [1; 1; 0])) `mod` 2)
    ∧ digits_value 2 (complement [1; 1; 0])
      = 2 ^ Z.of_nat (length [1; 1; 0]) - 1 - digits_value 2 [1; 1; 0]
    ∧ nks_rule [1; 1; 0] 110 = number_rule (complement [1; 1; 0]) 110
    ∧ (rule_bits ≠ reverse rule_bits →
       ∃ state', binary state' ∧ length state' = length [1; 1; 0]
                 ∧ nks_rule state' 110 ≠ number_rule state' 110).
Proof.
  apply (C5_nks_number_duality [1; 1; 0] 110).
  - repeat (constructor; [cbn; lia|]). constructor.
  - simpl. lia.
Defined.

(** C6. Radix round-trip: for every width [w >= 1] and every [v] in
    [[0, 2^w)], [int_to_bits v w] is a sequence of exactly [w] binary
    digits, most significant first and padded with zeros on the left ([w]
    zeros for [v = 0]), and [bits_to_int] gives [v] back from it. *)
Theorem C6_radix_round_trip (w v : Z) :
  1 ≤ w → 0 ≤ v < 2 ^ w →
  ∃ bits,
    int_to_bits v w = Ok bits
    ∧ bits_to_int bits = v
    ∧ Z.of_nat (length bits) = w
    ∧ (∀ p, 0 ≤ p < w →
         bits !! Z.to_nat p = Some ((v `div` 2 ^ (w - 1 - p)) `mod` 2))
    ∧ bits = replicate (Z.to_nat w - length (natural_digits 2 v)) 0
             ++ natural_digits 2 v
    ∧ (v = 0 → bits = replicate (Z.to_nat w) 0).
Proof.
  intros Hw Hv. exists (expansion 2 (Z.to_nat w) v).
  rewrite <- (Z2Nat.id w) in Hv |- * by lia.
  rewrite Nat2Z.id. set (w' := Z.to_nat w) in *.
  assert (1 ≤ w')%nat as Hw' by lia.
  split; [by apply int_to_bits_expansion|].
  split.
  { rewrite bits_to_int_binary by (apply range_binary, expansion_range; lia).
    rewrite digits_value_expansion by lia. apply Z.mod_small. lia. }
  split; [by rewrite length_expansion|].
  split.
  { intros p Hp. rewrite expansion_lookup by lia. do 4 f_equal. lia. }
  split.
  { symmetry. apply natural_digits_pad; [lia|done..]. }
  intros ->. apply expansion_0. lia.
Qed.

Lemma C6_radix_round_trip_witness :
  ∃ bits,
    int_to_bits 5 4 = Ok bits
    ∧ bits_to_int bits = 5
    ∧ Z.of_nat (length bits) = 4
    ∧ (∀ p, 0 ≤ p < 4 →
         bits !! Z.to_nat p = Some ((5 `div` 2 ^ (4 - 1 - p)) `mod` 2))
    ∧ bits = replicate (Z.to_nat 4 - length (natural_digits 2 5)) 0
             ++ natural_digits 2 5
    ∧ (5 = 0 → bits = replicate (Z.to_nat 4) 0).
Proof.
  apply (C6_radix_round_trip 4 5); simpl; lia.
Defined.

(** * The totalistic rule *)

Lemma digit_char_not_sign d :
  0 ≤ d < 36 → ¬ (digit_char d = "+"%char ∨ digit_char d = "-"%char).
Proof.
  intros Hd [Heq|Heq]; apply (f_equal digit_value) in Heq;
    rewrite digit_value_char in Heq by done; discriminate.
Qed.

Lemma zfill_digits (width : Z) (ds : list Z) :
  Forall (λ d, 0 ≤ d < 36) ds →
  zfill width (digit_char <$> ds)
  = digit_char <$> (replicate (Z.to_nat (width - Z.of_nat (length ds))) 0 ++ ds).
Proof.
  intros Hds. unfold zfill. rewrite length_fmap, fmap_app, fmap_replicate.
  change (digit_char 0) with "0"%char.
  destruct Hds as [|d ds Hd Hds]; [by rewrite app_nil_r|].
  cbn [fmap list_fmap]. by rewrite decide_False by by apply digit_char_not_sign.
Qed.

Lemma sum_from (a : Z) (l : list Z) : foldl Z.add a l = a + foldl Z.add 0 l.
Proof.
  revert a. induction l as [|x l IH]; intros a; cbn [foldl]; [lia|].
  rewrite (IH (a + x)), (IH (0 + x)). lia.
Qed.

Lemma sum_bound (k : Z) (state : list Z) :
  Forall (λ c, 0 ≤ c ≤ k - 1) state →
  0 ≤ foldl Z.add 0 state ≤ (k - 1) * Z.of_nat (length state).
Proof.
  induction 1 as [|c l Hc _ IH]; cbn [foldl length]; [lia|].
  rewrite sum_from. lia.
Qed.

Lemma sum_replicate (n : nat) (c : Z) : foldl Z.add 0 (replicate n c) = Z.of_nat n * c.
Proof.
  induction n as [|n IH]; [done|].
  cbn [replicate foldl]. rewrite sum_from, IH. lia.
Qed.

Section Totalistic.

Variable k : Z.
Variable rule : Z.
Hypothesis Hk : 2 ≤ k ≤ 36.
Hypothesis Hrule : 0 ≤ rule.

(** The width [3k - 2] of the rule string, as a list length. *)
Let w : nat := Z.to_nat (3 * k - 2).

Lemma rule_string_length :
  length (zfill (3 * k - 2) (digit_char <$> natural_digits k rule))
  = (w `max` length (natural_digits k rule))%nat.
Proof.
  rewrite zfill_digits.
  2:{ eapply Forall_impl; [apply (natural_digits_range k); lia|]. cbn. lia. }
  rewrite length_fmap, length_app, length_replicate. lia.
Qed.

(** Outside the range the function stops at the check. *)
Lemma totalistic_rule_out_of_range state :
  (w < length (natural_digits k rule))%nat →
  totalistic_rule state k rule = Raise (Exception "rule number out of range").
Proof.
  intros Hlen. unfold totalistic_rule.
  rewrite base_repr_nonneg by lia. cbn. rewrite rule_string_length.
  by rewrite (proj2 (Z.ltb_lt _ _)) by (subst w; lia).
Qed.

(** Inside the range the rule string is the expansion of width [3k - 2],
    and the result is the character at the index, read as a digit. *)
Lemma totalistic_rule_in_range state :
  (length (natural_digits k rule) ≤ w)%nat →
  totalistic_rule state k rule
  = Py.index (digit_char <$> expansion k w rule) ((3 * k - 3) - foldl Z.add 0 state)
    ≫= λ c, int_of_char c k.
Proof.
  intros Hlen. unfold totalistic_rule.
  rewrite base_repr_nonneg by lia. cbn. rewrite rule_string_length.
  rewrite (proj2 (Z.ltb_ge _ _)) by (subst w; lia).
  rewrite zfill_digits.
  2:{ eapply Forall_impl; [apply (natural_digits_range k); lia|]. cbn. lia. }
  assert (rule < k ^ Z.of_nat w) as Hlt.
  { destruct (Z.lt_ge_cases rule (k ^ Z.of_nat w)) as [|Hge]; [done|].
    apply (natural_digits_length k) in Hge; subst w; lia. }
  destruct (natural_digits_pad k ltac:(lia) w rule) as [_ Hpad]; [subst w; lia|lia|].
  rewrite <- Hpad. do 5 f_equal. subst w. lia.
Qed.

Lemma rule_string_digit (p : nat) :
  (p < w)%nat →
  of_option IndexError ((digit_char <$> expansion k w rule) !! p) ≫= (λ c, int_of_char c k)
  = Ok ((rule `div` k ^ Z.of_nat (w - 1 - p)) `mod` k).
Proof.
  intros Hp. rewrite list_lookup_fmap, expansion_lookup by lia. cbn.
  apply int_of_char_digit; [done|]. apply Z.mod_pos_bound. lia.
Qed.

(** The three cases of the index [(3k - 3) - state_sum]. *)
Lemma totalistic_rule_digit state :
  rule < k ^ (3 * k - 2) →
  0 ≤ foldl Z.add 0 state ≤ 3 * k - 3 →
  totalistic_rule state k rule = Ok ((rule `div` k ^ foldl Z.add 0 state) `mod` k).
Proof.
  intros Hlt Hsum.
  rewrite totalistic_rule_in_range.
  2:{ destruct (Nat.le_gt_cases (length (natural_digits k rule)) w) as [|Hgt]; [done|].
      apply (natural_digits_length k) in Hgt; subst w; try lia.
      rewrite Z2Nat.id in Hgt; lia. }
  unfold Py.index. rewrite length_fmap, length_expansion.
  cmp_true (0 <=? 3 * k - 3 - foldl Z.add 0 state) ltac:(lia).
  cmp_true (3 * k - 3 - foldl Z.add 0 state <? Z.of_nat w) ltac:(subst w; lia).
  cbn [andb]. rewrite rule_string_digit by (subst w; lia).
  do 4 f_equal. subst w. lia.
Qed.

Lemma totalistic_rule_wraps state :
  rule < k ^ (3 * k - 2) →
  3 * k - 2 ≤ foldl Z.add 0 state ≤ 6 * k - 5 →
  totalistic_rule state k rule
  = Ok ((rule `div` k ^ (foldl Z.add 0 state - (3 * k - 2))) `mod` k).
Proof.
  intros Hlt Hsum.
  rewrite totalistic_rule_in_range.
  2:{ destruct (Nat.le_gt_cases (length (natural_digits k rule)) w) as [|Hgt]; [done|].
      apply (natural_digits_length k) in Hgt; subst w; try lia.
      rewrite Z2Nat.id in Hgt; lia. }
  unfold Py.index. rewrite length_fmap, length_expansion.
  cmp_false (0 <=? 3 * k - 3 - foldl Z.add 0 state) ltac:(lia).
  cmp_true (- Z.of_nat w <=? 3 * k - 3 - foldl Z.add 0 state) ltac:(subst w; lia).
  cmp_true (3 * k - 3 - foldl Z.add 0 state <? 0) ltac:(lia).
  cbn [andb]. rewrite rule_string_digit by (subst w; lia).
  do 4 f_equal. subst w. lia.
Qed.

Lemma totalistic_rule_index_error state :
  rule < k ^ (3 * k - 2) →
  6 * k - 5 < foldl Z.add 0 state →
  totalistic_rule state k rule = Raise IndexError.
Proof.
  intros Hlt Hsum.
  rewrite totalistic_rule_in_range.
  2:{ destruct (Nat.le_gt_cases (length (natural_digits k rule)) w) as [|Hgt]; [done|].
      apply (natural_digits_length k) in Hgt; subst w; try lia.
      rewrite Z2Nat.id in Hgt; lia. }
  unfold Py.index. rewrite length_fmap, length_expansion.
  cmp_false (0 <=? 3 * k - 3 - foldl Z.add 0 state) ltac:(lia).
  cmp_false (- Z.of_nat w <=? 3 * k - 3 - foldl Z.add 0 state) ltac:(subst w; lia).
  done.
Qed.

Lemma totalistic_rule_no_range_error state :
  (length (natural_digits k rule) ≤ w)%nat →
  totalistic_rule state k rule ≠ Raise (Exception "rule number out of range").
Proof.
  intros Hlen. rewrite totalistic_rule_in_range by done.
  unfold Py.index.
  repeat match goal with |- context [if ?c then _ else _] => destruct c end;
    try done.
  all: match goal with |- context [?l !! ?i] => destruct (l !! i) as [c|] end; try done.
  all: cbn; unfold int_of_char;
    repeat match goal with |- context [if ?c then _ else _] => destruct c end; try done.
  all: destruct (digit_value c); try done.
  all: repeat match goal with |- context [if ?c then _ else _] => destruct c end; done.
Qed.

End Totalistic.

(** C9. Totalistic range error: for [k] in [[2, 36]] and a non-negative rule
    number, the base-[k] representation is longer than [3k-2] digits exactly
    when the rule number is at least [k^(3k-2)]; in that case
    [totalistic_rule] raises the range error whatever the neighborhood, and
    otherwise it does not raise the range error. *)
Theorem C9_totalistic_range_error (k rule : Z) (state : list Z) :
  2 ≤ k ≤ 36 → 0 ≤ rule →
  ∃ repr,
    base_repr rule k = Ok repr
    ∧ (3 * k - 2 < Z.of_nat (length repr) ↔ k ^ (3 * k - 2) ≤ rule)
    ∧ (3 * k - 2 < Z.of_nat (length repr) →
       totalistic_rule state k rule = Raise (Exception "rule number out of range"))
    ∧ (Z.of_nat (length repr) ≤ 3 * k - 2 →
       totalistic_rule state k rule ≠ Raise (Exception "rule number out of range")).
Proof.
  intros Hk Hrule. eexists. split; [apply base_repr_nonneg; lia|].
  rewrite length_fmap. split; [|split].
  - pose proof (natural_digits_length k ltac:(lia) (Z.to_nat (3 * k - 2)) rule
                  ltac:(lia) Hrule) as Hlen.
    rewrite Z2Nat.id in Hlen by lia. rewrite <- Hlen. lia.
  - intros Hlen. apply totalistic_rule_out_of_range; lia.
  - intros Hlen. apply totalistic_rule_no_range_error; lia.
Qed.

Lemma C9_totalistic_range_error_witness :
  ∃ repr,
    base_repr 2187 3 = Ok repr
    ∧ (3 * 3 - 2 < Z.of_nat (length repr) ↔ 3 ^ (3 * 3 - 2) ≤ 2187)
    ∧ (3 * 3 - 2 < Z.of_nat (length repr) →
       totalistic_rule [0; 1; 2] 3 2187 = Raise (Exception "rule number out of range"))
    ∧ (Z.of_nat (length repr) ≤ 3 * 3 - 2 →
       totalistic_rule [0; 1; 2] 3 2187 ≠ Raise (Exception "rule number out of range")).
Proof.
  apply (C9_totalistic_range_error 3 2187 [0; 1; 2]); lia.
Defined.

(** C10. [totalistic_rule] does not validate the neighborhood sum: for [k] in
    [[2, 36]] and a rule number that fits [3k-2] base-[k] digits, a sum [S]
    in [[3k-2, 6k-5]] makes the index [(3k-3) - S] negative, the string is
    indexed from its right end, and the function returns the rule digit of
    the sum [S - (3k-2)]; a sum above [6k-5] raises [IndexError], not the
    range error.  With cell states in [[0, k-1]] a sum above [3k-3] needs a
    neighborhood of more than 3 cells, and every such length admits one. *)
Theorem C10_totalistic_sum_unchecked (k rule : Z) (state : list Z) :
  2 ≤ k ≤ 36 → 0 ≤ rule < k ^ (3 * k - 2) →
  (3 * k - 2 ≤ foldl Z.add 0 state ≤ 6 * k - 5 →
     totalistic_rule state k rule
     = Ok ((rule `div` k ^ (foldl Z.add 0 state - (3 * k - 2))) `mod` k)
     ∧ ∀ state', foldl Z.add 0 state' = foldl Z.add 0 state - (3 * k - 2) →
         totalistic_rule state k rule = totalistic_rule state' k rule)
  ∧ (6 * k - 5 < foldl Z.add 0 state →
       totalistic_rule state k rule = Raise IndexError)
  ∧ (Forall (λ c, 0 ≤ c ≤ k - 1) state → 3 * k - 3 < foldl Z.add 0 state →
       (3 < length state)%nat)
  ∧ (∀ n, (3 < n)%nat →
       ∃ state', length state' = n ∧ Forall (λ c, 0 ≤ c ≤ k - 1) state'
                 ∧ 3 * k - 3 < foldl Z.add 0 state').
Proof.
  intros Hk Hrule. split; [|split; [|split]].
  - intros Hsum. split; [apply totalistic_rule_wraps; lia|].
    intros state' Hsum'.
    rewrite totalistic_rule_wraps by lia.
    rewrite (totalistic_rule_digit k rule) by lia.
    by rewrite Hsum'.
  - intros Hsum. apply totalistic_rule_index_error; lia.
  - intros Hcells Hsum. pose proof (sum_bound k state Hcells). nia.
  - intros n Hn. exists (replicate n (k - 1)).
    split; [apply length_replicate|]. split; [apply Forall_replicate; lia|].
    rewrite sum_replicate. nia.
Qed.

Lemma C10_totalistic_sum_unchecked_witness :
  totalistic_rule [2; 2; 2; 1] 3 777 = Ok ((777 `div` 3 ^ (foldl Z.add 0 [2; 2; 2; 1] - (3 * 3 - 2))) `mod` 3)
  ∧ totalistic_rule [2; 2; 2; 2; 2; 2; 2] 3 777 = Raise IndexError.
Proof.
  split.
  - apply (C10_totalistic_sum_unchecked 3 777 [2; 2; 2; 1]); simpl; lia.
  - apply (C10_totalistic_sum_unchecked 3 777 [2; 2; 2; 2; 2; 2; 2]); simpl; lia.
Defined.

(** * The neighborhood strings of the rule table *)

Lemma mapM_result_ext {A B} (f : A → result B) (g : A → B) (l : list A) :
  Forall (λ x, f x = Ok (g x)) l → mapM f l = Ok (g <$> l).
Proof.
  induction 1 as [|x l Hx _ IH]; [done|].
  cbn. rewrite Hx. cbn. rewrite IH. done.
Qed.

Section Words.

Variable k : Z.
Variable n : nat.
Hypothesis Hk : 2 ≤ k ≤ 36.
Hypothesis Hn : (1 ≤ n)%nat.

Lemma all_states_words :
  all_states k (Z.of_nat n)
  = Ok ((λ i, word k n (Z.of_nat i)) <$> seq 0 (Z.to_nat (k ^ Z.of_nat n))).
Proof.
  unfold all_states. cmp_false (Z.of_nat n <? 0) ltac:(lia).
  apply mapM_result_ext, Forall_forall. intros i Hi.
  apply elem_of_seq in Hi.
  rewrite base_repr_nonneg by lia. cbn.
  rewrite zfill_digits.
  2:{ eapply Forall_impl; [apply (natural_digits_range k); lia|]. cbn. lia. }
  destruct (natural_digits_pad k ltac:(lia) n (Z.of_nat i)) as [_ Hpad]; [done|lia|].
  unfold word. rewrite <- Hpad. do 5 f_equal. lia.
Qed.

Lemma length_word i : length (word k n i) = n.
Proof. unfold word. by rewrite length_fmap, length_expansion. Qed.

Lemma digit_chars_inj (ds1 ds2 : list Z) :
  Forall (λ d, 0 ≤ d < k) ds1 → Forall (λ d, 0 ≤ d < k) ds2 →
  digit_char <$> ds1 = digit_char <$> ds2 → ds1 = ds2.
Proof.
  intros H1. revert ds2. induction H1 as [|d1 ds1 Hd1 _ IH]; intros ds2 H2 Heq.
  - by destruct ds2.
  - destruct H2 as [|d2 ds2 Hd2 H2]; [done|].
    cbn in Heq. injection Heq as Hd Hds.
    cbn beta in Hd1, Hd2.
    f_equal; [apply digit_char_inj; [lia..|done]|by apply IH].
Qed.

Lemma word_inj i j :
  0 ≤ i < k ^ Z.of_nat n → 0 ≤ j < k ^ Z.of_nat n →
  word k n i = word k n j → i = j.
Proof.
  intros Hi Hj Heq. unfold word in Heq.
  apply digit_chars_inj in Heq; [|apply expansion_range; lia..].
  apply (f_equal (digits_value k)) in Heq.
  rewrite !digits_value_expansion in Heq by lia.
  by rewrite !Z.mod_small in Heq by lia.
Qed.


Lemma word_head i :
  ∃ d s, 0 ≤ d < k ∧ word k n i = digit_char d :: s.
Proof.
  unfold word.
  pose proof (expansion_range k ltac:(lia) n i) as Hr.
  pose proof (length_expansion k n i) as Hl.
  destruct Hr as [|d ds Hd _]; [cbn in Hl; lia|].
  exists d, (digit_char <$> ds). done.
Qed.

Lemma NoDup_words :
  NoDup ((λ i, word k n (Z.of_nat i)) <$> seq 0 (Z.to_nat (k ^ Z.of_nat n))).
Proof.
  apply NoDup_fmap_2_strong; [|apply NoDup_seq].
  intros i j Hi Hj Heq. apply elem_of_seq in Hi, Hj.
  apply word_inj in Heq; lia.
Qed.

Lemma elem_of_words s :
  s ∈ (λ i, word k n (Z.of_nat i)) <$> seq 0 (Z.to_nat (k ^ Z.of_nat n))
  ↔ ∃ i, 0 ≤ i < k ^ Z.of_nat n ∧ s = word k n i.
Proof.
  rewrite list_elem_of_fmap. split.
  - intros (i & -> & Hi). apply elem_of_seq in Hi. exists (Z.of_nat i). split; [lia|done].
  - intros (i & Hi & ->). exists (Z.to_nat i). rewrite Z2Nat.id by lia.
    split; [done|]. apply elem_of_seq. lia.
Qed.

End Words.

Lemma uniform_reverse (s : list ascii) : uniform s = true → reverse s = s.
Proof.
  unfold uniform. intros Hu. apply bool_decide_eq_true in Hu.
  destruct (remove_dups s) as [|c [|c' rest]] eqn:Hdups; try done.
  assert (s = replicate (length s) c) as ->.
  { symmetry. apply replicate_as_Forall. split; [done|].
    apply Forall_forall. intros x Hx.
    apply elem_of_remove_dups in Hx. rewrite Hdups in Hx.
    by apply list_elem_of_singleton in Hx. }
  apply reverse_replicate.
Qed.

(** * The random rule table *)

Lemma index_head {A} (c : A) (s : list A) : Py.index (c :: s) 0 = Ok c.
Proof.
  unfold Py.index. cbn [length].
  cmp_true (0 <=? 0) ltac:(lia).
  cmp_true (0 <? Z.of_nat (S (length s))) ltac:(lia). done.
Qed.

Section TableLoop.

Variable src : random_source.
Variable k : Z.
Variable lambda_val : Q.
Variable q : Z.
Variable strong_quiescence isotropic : bool.
Variable other_states : list Z.
Hypothesis Hk : 2 ≤ k ≤ 36.
Hypothesis Hothers : other_states ≠ [].
Hypothesis Hq : q ∉ other_states.

(** Every branch of the loop body stores one entry for the string and
    counts it when it is the quiescent state; under [isotropic] the entry
    is that of the mirror image when it differs from the string and is
    already in the table. *)
Lemma table_step_spec (st : table_state) (s : list ascii) :
  (∃ d s', 0 ≤ d < k ∧ s = digit_char d :: s') →
  ∃ v pos',
    table_step src k lambda_val q strong_quiescence isotropic other_states st s
    = Ok {| table := <[s := v]> (table st);
            quiescent_state_count := count_if q v (quiescent_state_count st);
            rng_pos := pos' |}
    ∧ (isotropic = true → reverse s ≠ s → is_Some (table st !! reverse s) →
       table st !! reverse s = Some v).
Proof.
  intros (d & s' & Hd & ->). unfold table_step.
  destruct (strong_quiescence && uniform (digit_char d :: s')) eqn:Hstrong.
  - apply andb_true_iff in Hstrong as [_ Hu].
    rewrite index_head. cbn [mbind result_bind].
    rewrite int_of_char_digit by lia. cbn.
    eexists d, _. split; [done|].
    intros _ Hrev. by apply uniform_reverse in Hu.
  - destruct (isotropic && bool_decide (is_Some (table st !! reverse (digit_char d :: s'))))
      eqn:Hiso.
    + apply andb_true_iff in Hiso as [_ [v Hv]%bool_decide_eq_true].
      rewrite Hv. cbn. eexists v, _. split; [done|]. done.
    + assert (isotropic = true →
              ¬ is_Some (table st !! reverse (digit_char d :: s'))) as Hnot.
      { intros ->. cbn in Hiso. by apply bool_decide_eq_false in Hiso. }
      unfold Random.random.
      destruct (Qlt_le_dec _ _).
      * eexists q, _. split.
        { unfold count_if. by rewrite Z.eqb_refl. }
        intros Hi _ Hsome. by apply Hnot in Hsome.
      * unfold Random.choice.
        destruct (lookup_lt_is_Some_2 other_states
                    (rand_int src (S (rng_pos st)) `mod` length other_states)%nat)
          as [x Hx].
        { apply Nat.mod_upper_bound. by destruct other_states. }
        rewrite Hx. cbn. eexists x, _. split.
        { unfold count_if.
          assert (x ≠ q) as Hne.
          { intros ->. apply Hq. by eapply list_elem_of_lookup_2. }
          by rewrite (proj2 (Z.eqb_neq x q)). }
        intros Hi _ Hsome. by apply Hnot in Hsome.
Qed.

Lemma quiescent_entries_insert (m : gmap (list ascii) Z) (s : list ascii) (v : Z) :
  m !! s = None →
  Z.of_nat (quiescent_entries q (<[s := v]> m))
  = count_if q v (Z.of_nat (quiescent_entries q m)).
Proof.
  intros Hs. unfold quiescent_entries, count_if.
  destruct (Z.eqb_spec v q) as [->|Hne].
  - rewrite map_filter_insert_True by done.
    rewrite map_size_insert_None by (apply map_lookup_filter_None_2; by left).
    lia.
  - rewrite map_filter_insert_False by done.
    by rewrite delete_id.
Qed.

Lemma table_invariant_insert (seen : list (list ascii)) (st : table_state)
    (s : list ascii) (v : Z) (pos' : nat) :
  table_invariant isotropic q seen st →
  s ∉ seen →
  (isotropic = true → reverse s ≠ s → is_Some (table st !! reverse s) →
   table st !! reverse s = Some v) →
  table_invariant isotropic q (seen ++ [s])
    {| table := <[s := v]> (table st);
       quiescent_state_count := count_if q v (quiescent_state_count st);
       rng_pos := pos' |}.
Proof.
  intros (Hdom & Hmirror & Hcount & Hsize) Hfresh Hcopy.
  assert (table st !! s = None) as Hnone.
  { apply eq_None_not_Some. by rewrite Hdom. }
  unfold table_invariant. cbn [table quiescent_state_count].
  split; [|split; [|split]].
  - intros t. rewrite lookup_insert_is_Some, Hdom, elem_of_app, list_elem_of_singleton.
    destruct (decide (s = t)) as [->|Hne]; [tauto|]. intuition congruence.
  - intros Hiso t Ht Hrt.
    rewrite elem_of_app, list_elem_of_singleton in Ht, Hrt.
    destruct (decide (reverse s = s)) as [Hpal|Hpal].
    + (* a palindrome is its own mirror image *)
      destruct (decide (t = s)) as [->|Hts]; [by rewrite Hpal|].
      assert (reverse t ≠ s) as Hrts.
      { intros Heq. apply Hts. by rewrite <- (reverse_involutive t), Heq. }
      rewrite !lookup_insert_ne by done. apply Hmirror; [done|tauto..].
    + destruct (decide (t = s)) as [->|Hts].
      * rewrite lookup_insert_eq, lookup_insert_ne by done.
        apply Hcopy; [done..|]. apply Hdom. tauto.
      * destruct (decide (reverse t = s)) as [Hrts|Hrts].
        -- rewrite Hrts, lookup_insert_eq, lookup_insert_ne by done.
           assert (reverse s = t) as Hst by (by rewrite <- Hrts, reverse_involutive).
           rewrite <- Hst. symmetry. apply Hcopy; [done..|].
           apply Hdom. rewrite Hst. tauto.
        -- rewrite !lookup_insert_ne by done. apply Hmirror; [done|tauto..].
  - by rewrite quiescent_entries_insert, Hcount.
  - rewrite map_size_insert_None, length_app, Hsize by done. cbn. lia.
Qed.

Lemma table_loop_spec (states seen : list (list ascii)) (st : table_state) :
  table_invariant isotropic q seen st →
  NoDup (seen ++ states) →
  Forall (λ s, ∃ d s', 0 ≤ d < k ∧ s = digit_char d :: s') states →
  ∃ st',
    table_loop src k lambda_val q strong_quiescence isotropic other_states st states
    = Ok st'
    ∧ table_invariant isotropic q (seen ++ states) st'.
Proof.
  revert seen st. induction states as [|s states IH]; intros seen st Hinv Hnodup Hwords.
  - exists st. by rewrite app_nil_r.
  - apply Forall_cons in Hwords as [Hs Hwords].
    destruct (table_step_spec st s Hs) as (v & pos' & Hstep & Hcopy).
    cbn [table_loop]. rewrite Hstep. cbn.
    rewrite cons_middle, app_assoc in Hnodup |- *.
    apply IH; [|done..].
    apply table_invariant_insert; [done| |done].
    apply NoDup_app in Hnodup as [Hnodup _].
    apply NoDup_app in Hnodup as (_ & Hdisj & _).
    intros Hin. apply (Hdisj s Hin). by apply list_elem_of_singleton.
Qed.

End TableLoop.

Lemma other_states_spec (k q : Z) :
  2 ≤ k →
  filter (λ x, x ≠ q) (seqZ 0 k) ≠ [] ∧ q ∉ filter (λ x, x ≠ q) (seqZ 0 k).
Proof.
  intros Hk. split.
  - assert ((if decide (q = 0) then 1 else 0) ∈ filter (λ x, x ≠ q) (seqZ 0 k)) as Hin.
    { apply list_elem_of_filter. split; [case_decide; lia|].
      apply elem_of_seqZ. case_decide; lia. }
    intros Hnil. rewrite Hnil in Hin. by apply not_elem_of_nil in Hin.
  - intros [Hne _]%list_elem_of_filter. done.
Qed.







(** * Further properties of the evolver *)

Section EvolveClosedForm.

Variable f : list Z → nat → Z.
Variable r : nat.
Variable cols : nat.

(** What one step makes of the previous row. *)
Variable step : list Z → list Z.
Hypothesis Hstep : ∀ cells array i,
  length cells = cols → array !! (i - 1)%nat = Some cells →
  evolve_step f r cols array i = Ok (<[i := step cells]> array).
Hypothesis Hlen : ∀ cells, length cells = cols → length (step cells) = cols.

Lemma length_iter_step (init : list Z) (i : nat) :
  length init = cols → length (Nat.iter i step init) = cols.
Proof. intros Hinit. induction i as [|i IH]; [done|]. cbn. by apply Hlen. Qed.

Lemma evolve_loop_iter (init : list Z) (m a : nat) (rest : list (list Z)) :
  length init = cols → (1 ≤ a)%nat → length rest = m →
  evolve_loop f r cols (((λ i, Nat.iter i step init) <$> seq 0 a) ++ rest) (seq a m)
  = Ok ((λ i, Nat.iter i step init) <$> seq 0 (a + m)).
Proof.
  intros Hinit. revert a rest. induction m as [|m IH]; intros a rest Ha Hrest.
  - apply nil_length_inv in Hrest as ->. by rewrite app_nil_r, Nat.add_0_r.
  - destruct rest as [|x rest]; [done|]. cbn [seq evolve_loop].
    rewrite (Hstep (Nat.iter (a - 1) step init)).
    2:{ by apply length_iter_step. }
    2:{ rewrite lookup_app_l by (rewrite length_fmap, length_seq; lia).
        rewrite list_lookup_fmap, lookup_seq_lt by lia. done. }
    cbn [mbind result_bind].
    assert (<[a := step (Nat.iter (a - 1) step init)]>
              (((λ i, Nat.iter i step init) <$> seq 0 a) ++ x :: rest)
            = ((λ i, Nat.iter i step init) <$> seq 0 (S a)) ++ rest) as ->.
    { rewrite insert_app_r_alt by (rewrite length_fmap, length_seq; lia).
      rewrite length_fmap, length_seq, Nat.sub_diag. cbn [list_insert].
      rewrite seq_S, fmap_app, <- app_assoc. cbn [fmap list_fmap app Nat.add].
      do 2 f_equal. destruct a as [|a]; [lia|].
      by replace (S a - 1)%nat with a by lia. }
    rewrite IH by (cbn in Hrest; lia). do 3 f_equal. lia.
Qed.

Lemma evolve_iter (init : list Z) (n : nat) :
  length init = cols → (1 ≤ n)%nat →
  evolve f r init n = Ok ((λ i, Nat.iter i step init) <$> seq 0 n).
Proof.
  intros Hinit Hn. destruct n as [|n]; [lia|].
  unfold evolve. rewrite Hinit. cbn [replicate list_insert].
  replace (S n - 1)%nat with n by lia.
  apply (evolve_loop_iter init n 1 (replicate n (replicate cols 0)));
    [done|lia|apply length_replicate].
Qed.

End EvolveClosedForm.

Lemma evolve_orbit (f : list Z → nat → Z) (r : nat) (init : list Z) (n_steps : nat) :
  (1 ≤ n_steps)%nat → (1 ≤ r ≤ length init)%nat →
  evolve f r init n_steps
  = Ok ((λ i, Nat.iter i (sync_row f r) init) <$> seq 0 n_steps).
Proof.
  intros Hn Hr.
  apply (evolve_iter f r (length init) (sync_row f r)); try done.
  - intros cells array i Hcells Hprev. rewrite <- Hcells.
    apply evolve_step_spec; [|done]. left. lia.
  - intros cells Hcells. by rewrite length_sync_row.
Qed.



Lemma length_orbit f r init i :
  length (Nat.iter i (sync_row f r) init) = length init.
Proof. induction i as [|i IH]; [done|]. cbn. by rewrite length_sync_row. Qed.

Lemma orbit_add f r init (m i : nat) :
  Nat.iter (m + i) (sync_row f r) init
  = Nat.iter i (sync_row f r) (Nat.iter m (sync_row f r) init).
Proof. rewrite Nat.add_comm. apply Nat.iter_add. Qed.

(** X2. Restarting: running [m] steps, and then [n + 1] steps from the last
    row obtained, gives the rows of one run of [m + n] steps. *)
Theorem X2_evolve_restart (f : list Z → nat → Z) (r : nat) (init row : list Z)
    (m n : nat) (g1 g2 : list (list Z)) :
  (1 ≤ m)%nat → (1 ≤ r ≤ length init)%nat →
  evolve f r init m = Ok g1 → last g1 = Some row →
  evolve f r row (S n) = Ok g2 →
  evolve f r init (m + n) = Ok (g1 ++ drop 1 g2).
Proof.
  intros Hm Hr Hg1 Hlast Hg2.
  rewrite evolve_orbit in Hg1 by done. injection Hg1 as <-.
  assert (row = Nat.iter (m - 1) (sync_row f r) init) as ->.
  { rewrite last_lookup, length_fmap, length_seq in Hlast.
    rewrite list_lookup_fmap, lookup_seq_lt in Hlast by lia.
    injection Hlast as <-. f_equal. lia. }
  rewrite evolve_orbit in Hg2 by (rewrite ?length_orbit; lia).
  assert (g2 = (λ i, Nat.iter i (sync_row f r) (Nat.iter (m - 1) (sync_row f r) init))
                 <$> seq 0 (S n)) as -> by congruence.
  rewrite evolve_orbit by lia. f_equal.
  apply list_eq. intros i.
  destruct (decide (i < m)%nat) as [Hi|Hi].
  - rewrite lookup_app_l by (rewrite length_fmap, length_seq; lia).
    by rewrite !list_lookup_fmap, !lookup_seq_lt by lia.
  - rewrite lookup_app_r by (rewrite length_fmap, length_seq; lia).
    rewrite length_fmap, length_seq, lookup_drop, !list_lookup_fmap.
    destruct (decide (i < m + n)%nat) as [Hi'|Hi'].
    + rewrite !lookup_seq_lt by lia. cbn [fmap option_fmap option_map]. f_equal.
      rewrite <- orbit_add. f_equal. lia.
    + by rewrite !lookup_seq_ge by lia.
Qed.

Lemma X2_evolve_restart_witness :
  evolve (λ s _, foldr Z.add 0 s) 1 [0; 0; 1; 0; 0] (2 + 1)
  = Ok ([[0; 0; 1; 0; 0]; [0; 1; 1; 1; 0]]
        ++ drop 1 [[0; 1; 1; 1; 0]; [1; 2; 3; 2; 1]]).
Proof.
  apply (X2_evolve_restart (λ s _, foldr Z.add 0 s) 1 [0; 0; 1; 0; 0] [0; 1; 1; 1; 0] 2 1);
    [lia | simpl; lia | reflexivity | reflexivity | reflexivity].
Defined.

Lemma neighborhood_rotate (r : nat) (row : list Z) (j c : nat) :
  (c < length row)%nat →
  neighborhood r (rotate j row) c
  = neighborhood r row (rotate_nat_add j c (length row)).
Proof.
  intros Hc. unfold neighborhood. rewrite length_rotate.
  apply list_fmap_ext. intros _ t _.
  rewrite !list_lookup_total_alt.
  rewrite lookup_rotate_r by (apply wrap_index_lt; lia).
  do 2 f_equal. unfold rotate_nat_add, wrap_index. f_equal.
  assert (0 < Z.of_nat (length row)) as HN by lia.
  rewrite !Z2Nat.id by (apply Z.mod_pos_bound; lia).
  rewrite Z.add_mod_idemp_r by lia.
  replace ((Z.of_nat j + Z.of_nat c) `mod` Z.of_nat (length row) + Z.of_nat t - Z.of_nat r)
    with ((Z.of_nat j + Z.of_nat c) `mod` Z.of_nat (length row) + (Z.of_nat t - Z.of_nat r))
    by lia.
  rewrite Z.add_mod_idemp_l by lia.
  f_equal. lia.
Qed.

Lemma sync_row_rotate (f : list Z → nat → Z) (r : nat) (row : list Z) (j : nat) :
  (∀ s c c', f s c = f s c') →
  sync_row f r (rotate j row) = rotate j (sync_row f r row).
Proof.
  intros Hf. apply list_eq. intros c. unfold sync_row at 1.
  rewrite list_lookup_fmap, length_rotate.
  destruct (decide (c < length row)%nat) as [Hc|Hc].
  - rewrite lookup_seq_lt by done. cbn [fmap option_fmap option_map].
    rewrite lookup_rotate_r by (by rewrite length_sync_row).
    rewrite length_sync_row. unfold sync_row.
    assert (rotate_nat_add j c (length row) < length row)%nat as Hlt.
    { unfold rotate_nat_add.
      pose proof (Z.mod_pos_bound (Z.of_nat j + Z.of_nat c) (Z.of_nat (length row))). lia. }
    rewrite list_lookup_fmap, lookup_seq_lt by done.
    cbn [fmap option_fmap option_map Nat.add].
    rewrite neighborhood_rotate by done. f_equal. apply Hf.
  - rewrite lookup_seq_ge by lia. symmetry.
    apply lookup_ge_None_2. rewrite length_rotate, length_sync_row. lia.
Qed.

(** X3. Translation invariance: for a rule function that does not depend on
    the cell index, evolving a cyclically rotated row gives the grid of the
    unrotated row with every row rotated the same way. *)
Theorem X3_evolve_rotate (f : list Z → nat → Z) (r : nat) (init : list Z)
    (n_steps j : nat) (g : list (list Z)) :
  (∀ s c c', f s c = f s c') →
  (1 ≤ n_steps)%nat → (1 ≤ r ≤ length init)%nat →
  evolve f r init n_steps = Ok g →
  evolve f r (rotate j init) n_steps = Ok (rotate j <$> g).
Proof.
  intros Hf Hn Hr Hg.
  rewrite evolve_orbit in Hg by done.
  assert (g = (λ i, Nat.iter i (sync_row f r) init) <$> seq 0 n_steps) as ->
    by congruence.
  rewrite evolve_orbit by (rewrite ?length_rotate; lia). f_equal.
  rewrite <- list_fmap_compose. apply list_fmap_ext. intros _ i _. cbn [compose].
  induction i as [|i IH]; [done|].
  change (sync_row f r (Nat.iter i (sync_row f r) (rotate j init))
          = rotate j (sync_row f r (Nat.iter i (sync_row f r) init))).
  rewrite IH. by apply sync_row_rotate.
Qed.

Lemma X3_evolve_rotate_witness :
  evolve (λ s _, foldr Z.add 0 s) 1 (rotate 2 [0; 0; 1; 0; 0]) 2
  = Ok (rotate 2 <$> [[0; 0; 1; 0; 0]; [0; 1; 1; 1; 0]]).
Proof.
  apply (X3_evolve_rotate (λ s _, foldr Z.add 0 s) 1 [0; 0; 1; 0; 0] 2 2);
    [reflexivity | lia | simpl; lia | reflexivity].
Defined.

(** * A radius above the row length *)

Lemma index_strides_wide (N r : nat) :
  (1 ≤ r)%nat → (N ≤ r)%nat →
  index_strides (Py.arange N) (2 * r + 1)
  = Py.as_strided (seq 0 N ++ seq 0 N ++ seq 0 N)
      (3 * Z.of_nat N - 2 * Z.of_nat r) (2 * r + 1).
Proof.
  intros Hr HN. unfold index_strides, Py.arange.
  rewrite window_start, window_half.
  unfold Py.slice_from, Py.slice_to. rewrite !length_seq.
  cmp_true (- Z.of_nat r <? 0) ltac:(lia).
  cmp_false (Z.of_nat r <? 0) ltac:(lia).
  replace (Z.to_nat (Z.max (- Z.of_nat r + Z.of_nat N) 0)) with 0%nat by lia.
  replace (Z.to_nat (Z.min (Z.of_nat r) (Z.of_nat N))) with N by lia.
  rewrite drop_0, (take_ge (seq 0 N)) by (rewrite length_seq; lia).
  rewrite !length_app, !length_seq. f_equal. lia.
Qed.

Lemma lookup_all {A} `{Inhabited A} (cells : list A) (idx : list nat) :
  Forall (λ i, (i < length cells)%nat) idx →
  mapM (λ i, cells !! i) idx = Some ((λ i, cells !!! i) <$> idx).
Proof.
  intros Hidx. rewrite <- (list_fmap_id idx) at 1.
  apply mapM_fmap_Some. intros i Hi. cbn.
  apply list_lookup_lookup_total_lt.
  by apply (proj1 (Forall_forall _ _) Hidx).
Qed.

Lemma lookup_all_tripled (cells : list Z) :
  (λ i, cells !!! i) <$> (seq 0 (length cells) ++ seq 0 (length cells) ++ seq 0 (length cells))
  = cells ++ cells ++ cells.
Proof.
  assert ((λ i, cells !!! i) <$> seq 0 (length cells) = cells) as Hone.
  { apply list_eq. intros i. rewrite list_lookup_fmap.
    destruct (decide (i < length cells)%nat).
    - rewrite lookup_seq_lt by done. cbn. symmetry.
      by apply list_lookup_lookup_total_lt.
    - rewrite lookup_seq_ge by lia. symmetry. apply lookup_ge_None_2. lia. }
  by rewrite !fmap_app, Hone.
Qed.

(** The windows cut from the tripled index array, read off the row. *)
Lemma neighborhoods_wide (r : nat) (cells : list Z) :
  (1 ≤ r)%nat → (length cells ≤ r)%nat →
  0 ≤ 3 * Z.of_nat (length cells) - 2 * Z.of_nat r →
  neighborhoods r cells
  = Ok ((λ c, take (2 * r + 1) (drop c (cells ++ cells ++ cells)))
          <$> seq 0 (Z.to_nat (3 * Z.of_nat (length cells) - 2 * Z.of_nat r))).
Proof.
  intros Hr HN Hrows. unfold neighborhoods.
  rewrite index_strides_wide by done. unfold Py.as_strided.
  cmp_false (3 * Z.of_nat (length cells) - 2 * Z.of_nat r <? 0) ltac:(lia).
  cbn [mbind result_bind]. unfold Py.take_indices.
  erewrite (mapM_fmap_Some _ _
              (λ c, take (2 * r + 1) (drop c (cells ++ cells ++ cells)))); [done|].
  intros c _. rewrite lookup_all.
  - by rewrite fmap_take, fmap_drop, lookup_all_tripled.
  - apply Forall_take, Forall_drop. rewrite !Forall_app.
    repeat split; apply Forall_forall; intros i Hi; apply elem_of_seq in Hi; lia.
Qed.

Lemma evolve_first_step_raises (f : list Z → nat → Z) (r n : nat) (row : list Z) (e : exn) :
  (2 ≤ n)%nat →
  (∀ array, array !! 0%nat = Some row → evolve_step f r (length row) array 1 = Raise e) →
  evolve f r row n = Raise e.
Proof.
  intros Hn Hstep. destruct n as [|[|n]]; [lia..|].
  unfold evolve. cbn [Nat.sub seq evolve_loop].
  rewrite Hstep; done.
Qed.

(** X4. A radius above the row length is refused: for a non-empty row of
    length [N], [r > N] and at least one step to take, [evolve] raises
    [ValueError], unless [2r + 1 = 3N]. *)
Theorem X4_evolve_radius_above_length (f : list Z → nat → Z) (r : nat)
    (init : list Z) (n_steps : nat) :
  (2 ≤ n_steps)%nat → (1 ≤ length init < r)%nat →
  (2 * r + 1 ≠ 3 * length init)%nat →
  evolve f r init n_steps = Raise ValueError.
Proof.
  intros Hn Hr Hodd. apply evolve_first_step_raises; [done|].
  intros array Hrow. unfold evolve_step. cbn [Nat.sub]. rewrite Hrow.
  cbn [of_option mbind result_bind].
  destruct (Z.lt_ge_cases (3 * Z.of_nat (length init) - 2 * Z.of_nat r) 0) as [Hneg|Hpos].
  - unfold neighborhoods. rewrite index_strides_wide by lia.
    unfold Py.as_strided.
    by cmp_true (3 * Z.of_nat (length init) - 2 * Z.of_nat r <? 0) ltac:(lia).
  - rewrite neighborhoods_wide by lia. cbn [mbind result_bind].
    unfold Py.broadcast_row.
    set (new := (λ '(c, s), f s c) <$> _).
    assert (length new = Z.to_nat (3 * Z.of_nat (length init) - 2 * Z.of_nat r)) as Hlen.
    { unfold new, Py.enumerate. by rewrite length_fmap, length_imap, length_fmap, length_seq. }
    rewrite decide_False by lia.
    destruct new as [|v [|v' new]]; [done| cbn in Hlen; lia | done].
Qed.

Lemma X4_evolve_radius_above_length_witness :
  evolve (λ s _, foldr Z.add 0 s) 3 [0; 1] 2 = Raise ValueError.
Proof.
  apply (X4_evolve_radius_above_length (λ s _, foldr Z.add 0 s) 3 [0; 1] 2); simpl; lia.
Defined.



(** * The evolver with a rule function that may raise *)


Lemma mapM_result_compose {A B C} (h : B → result C) (g : A → B) (l : list A) :
  mapM h (g <$> l) = mapM (h ∘ g) l.
Proof. induction l as [|x l IH]; [done|]. cbn. by rewrite IH. Qed.

Lemma enumerate_seq {A} (g : nat → A) (n : nat) :
  Py.enumerate (g <$> seq 0 n) = (λ c, (c, g c)) <$> seq 0 n.
Proof.
  unfold Py.enumerate. apply list_eq. intros i.
  rewrite list_lookup_imap, !list_lookup_fmap.
  destruct (decide (i < n)%nat).
  - by rewrite lookup_seq_lt by lia.
  - by rewrite lookup_seq_ge by lia.
Qed.

Section EvolveRaisingProofs.

Variable apply_rule : list Z → nat → result Z.
Variable f : list Z → nat → Z.
Variable r : nat.

(** The rule function returns on every neighborhood of [cells]. *)
Let returns_on (cells : list Z) : Prop :=
  ∀ c, (c < length cells)%nat →
    apply_rule (neighborhood r cells c) c = Ok (f (neighborhood r cells c) c).

Lemma evolve_step_exn_returns (i : nat) (array : list (list Z)) (cells : list Z) :
  (1 ≤ r ≤ length cells)%nat → array !! (i - 1)%nat = Some cells →
  returns_on cells →
  evolve_step_exn apply_rule r (length cells) array i
  = Ok (<[i := sync_row f r cells]> array).
Proof.
  intros Hr Hprev Hret. unfold evolve_step_exn. rewrite Hprev.
  cbn [of_option mbind result_bind].
  rewrite neighborhoods_spec by done. cbn [mbind result_bind].
  rewrite enumerate_seq, mapM_result_compose.
  rewrite (mapM_result_ext _ (λ c, f (neighborhood r cells c) c)).
  2:{ apply Forall_forall. intros c Hc. apply elem_of_seq in Hc.
      cbn. apply Hret. lia. }
  cbn [mbind result_bind]. fold (sync_row f r cells).
  unfold Py.broadcast_row. by rewrite decide_True by apply length_sync_row.
Qed.


Lemma evolve_loop_exn_returns (init : list Z) (m a : nat) (rest : list (list Z)) :
  (1 ≤ r ≤ length init)%nat → (1 ≤ a)%nat → length rest = m →
  (∀ i, (a - 1 ≤ i < a + m - 1)%nat → returns_on (Nat.iter i (sync_row f r) init)) →
  evolve_loop_exn apply_rule r (length init)
    (((λ i, Nat.iter i (sync_row f r) init) <$> seq 0 a) ++ rest) (seq a m)
  = Ok ((λ i, Nat.iter i (sync_row f r) init) <$> seq 0 (a + m)).
Proof.
  intros Hr. revert a rest. induction m as [|m IH]; intros a rest Ha Hrest Hret.
  - apply nil_length_inv in Hrest as ->. by rewrite app_nil_r, Nat.add_0_r.
  - destruct rest as [|x rest]; [done|]. cbn [seq evolve_loop_exn].
    rewrite <- (length_orbit f r init (a - 1)) at 1.
    rewrite (evolve_step_exn_returns a _ (Nat.iter (a - 1) (sync_row f r) init)).
    2:{ rewrite length_orbit. lia. }
    2:{ rewrite lookup_app_l by (rewrite length_fmap, length_seq; lia).
        rewrite list_lookup_fmap, lookup_seq_lt by lia. done. }
    2:{ apply Hret. lia. }
    cbn [mbind result_bind].
    assert (<[a := sync_row f r (Nat.iter (a - 1) (sync_row f r) init)]>
              (((λ i, Nat.iter i (sync_row f r) init) <$> seq 0 a) ++ x :: rest)
            = ((λ i, Nat.iter i (sync_row f r) init) <$> seq 0 (S a)) ++ rest) as ->.
    { rewrite insert_app_r_alt by (rewrite length_fmap, length_seq; lia).
      rewrite length_fmap, length_seq, Nat.sub_diag. cbn [list_insert].
      rewrite seq_S, fmap_app, <- app_assoc. cbn [fmap list_fmap app Nat.add].
      do 2 f_equal. destruct a as [|a]; [lia|].
      by replace (S a - 1)%nat with a by lia. }
    rewrite ?length_orbit.
    rewrite IH; [do 3 f_equal; lia|lia|cbn in Hrest; lia|].
    intros i Hi. apply Hret. lia.
Qed.


End EvolveRaisingProofs.

Lemma evolve_exn_orbit (apply_rule : list Z → nat → result Z)
    (f : list Z → nat → Z) (r : nat) (init : list Z) (n_steps : nat) :
  (1 ≤ n_steps)%nat → (1 ≤ r ≤ length init)%nat →
  (∀ i c, (i + 1 < n_steps)%nat → (c < length init)%nat →
     apply_rule (neighborhood r (Nat.iter i (sync_row f r) init) c) c
     = Ok (f (neighborhood r (Nat.iter i (sync_row f r) init) c) c)) →
  evolve_exn apply_rule r init n_steps
  = Ok ((λ i, Nat.iter i (sync_row f r) init) <$> seq 0 n_steps).
Proof.
  intros Hn Hr Hret.
  destruct n_steps as [|n]; [lia|]. unfold evolve_exn.
  cbn [replicate list_insert]. replace (S n - 1)%nat with n by lia.
  apply (evolve_loop_exn_returns apply_rule f r init n 1
           (replicate n (replicate (length init) 0)));
    [done|lia|apply length_replicate|].
  intros i Hi c Hc. rewrite length_orbit in Hc. apply Hret; lia.
Qed.





(** * Further properties of the binary codec *)

Lemma truth_range (bits : list Z) : Forall (λ d, 0 ≤ d < 2) (truth <$> bits).
Proof.
  apply Forall_fmap, Forall_forall. intros j _. cbn. unfold truth.
  destruct (j =? 0); lia.
Qed.

Lemma truth_idemp (bits : list Z) : truth <$> (truth <$> bits) = truth <$> bits.
Proof. apply truth_binary, range_binary, truth_range. Qed.

Lemma bits_to_int_truth (bits : list Z) :
  bits_to_int bits = bits_to_int (truth <$> bits).
Proof. by rewrite !bits_to_int_value, truth_idemp. Qed.

Lemma bits_to_int_range (bits : list Z) :
  0 ≤ bits_to_int bits < 2 ^ Z.of_nat (length bits).
Proof.
  rewrite bits_to_int_value.
  pose proof (digits_value_range 2 ltac:(lia) _ (truth_range bits)) as H.
  by rewrite length_fmap in H.
Qed.

(** X8. [bits_to_int] reads any list of integers: every non-zero element
    counts as a one, the result is the most-significant-first value of these
    bits and lies in [[0, 2^len)]; the empty list gives 0. *)
Theorem X8_bits_to_int_any (bits : list Z) :
  bits_to_int bits = digits_value 2 (truth <$> bits)
  ∧ bits_to_int bits = bits_to_int (truth <$> bits)
  ∧ 0 ≤ bits_to_int bits < 2 ^ Z.of_nat (length bits)
  ∧ bits_to_int [] = 0.
Proof.
  split; [apply bits_to_int_value|]. split; [apply bits_to_int_truth|].
  split; [apply bits_to_int_range|done].
Qed.

Lemma natural_digits_nonempty (b v : Z) : (1 ≤ length (natural_digits b v))%nat.
Proof.
  unfold natural_digits.
  destruct (msb_digits (repr_fuel v) b v); cbn; lia.
Qed.

Lemma int_to_bits_negative (v w : Z) : v < 0 → int_to_bits v w = Raise ValueError.
Proof.
  intros Hv. unfold int_to_bits, bin.
  cmp_true (v <? 0) ltac:(lia). reflexivity.
Qed.

Lemma int_to_bits_nonneg (v w : Z) :
  0 ≤ v →
  int_to_bits v w
  = if w - Z.of_nat (length (natural_digits 2 v)) <? 0 then Raise ValueError
    else Ok (replicate (Z.to_nat (w - Z.of_nat (length (natural_digits 2 v)))) 0
             ++ natural_digits 2 v).
Proof.
  intros Hv. unfold int_to_bits.
  rewrite bin_nonneg by lia.
  change (drop 2 (list_ascii_of_string "0b" ++ ?l)) with l.
  rewrite mapM_result_fmap; [done|].
  eapply Forall_impl; [apply (natural_digits_range 2); lia|].
  intros d Hd. cbn beta in Hd. apply int_of_char_digit; lia.
Qed.

Lemma int_to_bits_outside (v w : Z) :
  ¬ (1 ≤ w ∧ 0 ≤ v < 2 ^ w) → int_to_bits v w = Raise ValueError.
Proof.
  intros Hnot.
  destruct (Z.lt_ge_cases v 0) as [Hneg|Hv]; [by apply int_to_bits_negative|].
  rewrite int_to_bits_nonneg by done.
  pose proof (natural_digits_nonempty 2 v) as Hlen.
  destruct (Z.lt_ge_cases w 1) as [Hw|Hw].
  - by cmp_true (w - Z.of_nat (length (natural_digits 2 v)) <? 0) ltac:(lia).
  - assert (2 ^ w ≤ v) as Hge by lia.
    rewrite <- (Z2Nat.id w) in Hge by lia.
    apply (natural_digits_length 2 ltac:(lia) (Z.to_nat w) v) in Hge; [|lia..].
    by cmp_true (w - Z.of_nat (length (natural_digits 2 v)) <? 0) ltac:(lia).
Qed.

(** X9. [int_to_bits] does not truncate: outside [0 <= v < 2^w] with
    [w >= 1], that is for a negative number, a number that needs more than
    [w] binary digits, or a width below 1, it raises [ValueError]. *)
Theorem X9_int_to_bits_refuses (v w : Z) :
  ¬ (1 ≤ w ∧ 0 ≤ v < 2 ^ w) → int_to_bits v w = Raise ValueError.
Proof. apply int_to_bits_outside. Qed.

Lemma X9_int_to_bits_refuses_witness :
  int_to_bits 8 3 = Raise ValueError ∧ int_to_bits (-1) 3 = Raise ValueError
  ∧ int_to_bits 0 0 = Raise ValueError.
Proof.
  split; [|split].
  - apply (X9_int_to_bits_refuses 8 3). simpl. lia.
  - apply (X9_int_to_bits_refuses (-1) 3). simpl. lia.
  - apply (X9_int_to_bits_refuses 0 0). simpl. lia.
Defined.

(** X10. The round trip in the other direction: a non-empty binary digit
    sequence is given back by [int_to_bits], at its own length, from the
    integer that [bits_to_int] reads in it. *)
Theorem X10_bits_round_trip (bits : list Z) :
  binary bits → bits ≠ [] →
  int_to_bits (bits_to_int bits) (Z.of_nat (length bits)) = Ok bits.
Proof.
  intros Hbin Hne.
  rewrite bits_to_int_binary by done.
  pose proof (digits_value_range 2 ltac:(lia) bits (binary_range bits Hbin)) as Hrange.
  assert (1 ≤ length bits)%nat by (destruct bits; [done|cbn; lia]).
  rewrite int_to_bits_expansion by done.
  f_equal. apply expansion_digits_value. by apply binary_range.
Qed.

Lemma X10_bits_round_trip_witness :
  int_to_bits (bits_to_int [0; 1; 1; 0]) (Z.of_nat (length [0; 1; 1; 0])) = Ok [0; 1; 1; 0].
Proof.
  apply (X10_bits_round_trip [0; 1; 1; 0]).
  - repeat (constructor; [cbn; lia|]). constructor.
  - discriminate.
Defined.

(** * Further properties of the binary rules *)

Lemma nks_rule_truth (state : list Z) (rule : Z) :
  nks_rule state rule = nks_rule (truth <$> state) rule.
Proof.
  unfold nks_rule. rewrite length_fmap.
  by rewrite (bits_to_int_truth state).
Qed.

Lemma number_rule_truth (state : list Z) (rule : Z) :
  number_rule state rule = number_rule (truth <$> state) rule.
Proof.
  unfold number_rule. rewrite length_fmap.
  by rewrite (bits_to_int_truth state).
Qed.

Lemma truth_is_binary (state : list Z) : binary (truth <$> state).
Proof. apply range_binary, truth_range. Qed.

Lemma mod_2_cases (x : Z) : x `mod` 2 = 0 ∨ x `mod` 2 = 1.
Proof. pose proof (Z.mod_pos_bound x 2). lia. Qed.

(** X11. The binary rules accept any neighborhood of integers: for a rule
    number in [[0, 2^(2^L))] they return 0 or 1 and never raise, a non-zero
    cell being read as a one. *)
Theorem X11_binary_rules_total (state : list Z) (rule : Z) :
  0 ≤ rule < 2 ^ (2 ^ Z.of_nat (length state)) →
  (∃ v, nks_rule state rule = Ok v ∧ (v = 0 ∨ v = 1))
  ∧ (∃ v, number_rule state rule = Ok v ∧ (v = 0 ∨ v = 1))
  ∧ nks_rule state rule = nks_rule (truth <$> state) rule
  ∧ number_rule state rule = number_rule (truth <$> state) rule.
Proof.
  intros Hrule.
  pose proof (truth_is_binary state) as Hbin.
  assert (0 ≤ rule < 2 ^ (2 ^ Z.of_nat (length (truth <$> state)))) as Hrule'
    by (by rewrite length_fmap).
  split; [|split; [|split; [apply nks_rule_truth|apply number_rule_truth]]].
  - rewrite nks_rule_truth, nks_rule_value by done.
    eexists. split; [done|]. apply mod_2_cases.
  - rewrite number_rule_truth, number_rule_value by done.
    eexists. split; [done|]. apply mod_2_cases.
Qed.

Lemma X11_binary_rules_total_witness :
  (∃ v, nks_rule [3; 0; -1] 110 = Ok v ∧ (v = 0 ∨ v = 1))
  ∧ (∃ v, number_rule [3; 0; -1] 110 = Ok v ∧ (v = 0 ∨ v = 1))
  ∧ nks_rule [3; 0; -1] 110 = nks_rule (truth <$> [3; 0; -1]) 110
  ∧ number_rule [3; 0; -1] 110 = number_rule (truth <$> [3; 0; -1]) 110.
Proof. apply (X11_binary_rules_total [3; 0; -1] 110). simpl. lia. Defined.

(** X12. A rule number outside [[0, 2^(2^L))] is refused: [nks_rule] and
    [number_rule] raise [ValueError] on every neighborhood of [L] cells. *)
Theorem X12_binary_rules_refuse (state : list Z) (rule : Z) :
  ¬ (0 ≤ rule < 2 ^ (2 ^ Z.of_nat (length state))) →
  nks_rule state rule = Raise ValueError
  ∧ number_rule state rule = Raise ValueError.
Proof.
  intros Hrule. unfold nks_rule, number_rule.
  rewrite int_to_bits_outside; [done|]. intros [_ H]. by apply Hrule.
Qed.

Lemma X12_binary_rules_refuse_witness :
  nks_rule [1; 0; 1] 256 = Raise ValueError
  ∧ number_rule [1; 0; 1] 256 = Raise ValueError.
Proof. apply (X12_binary_rules_refuse [1; 0; 1] 256). simpl. lia. Defined.

Section Mirror.

Variable L : nat.
Variable rule : Z.
Hypothesis Hrule : 0 ≤ rule < 2 ^ (2 ^ Z.of_nat L).

Let w : nat := Z.to_nat (2 ^ Z.of_nat L).

Lemma mirror_rule_range : 0 ≤ mirror_rule L rule < 2 ^ (2 ^ Z.of_nat L).
Proof.
  unfold mirror_rule.
  pose proof (digits_value_range 2 ltac:(lia) (reverse (expansion 2 w rule))) as H.
  rewrite length_reverse, length_expansion in H.
  assert (0 < 2 ^ Z.of_nat L) by (apply Z.pow_pos_nonneg; lia).
  subst w. rewrite Z2Nat.id in H by lia.
  apply H, Forall_reverse, expansion_range. lia.
Qed.

Lemma mirror_rule_expansion :
  expansion 2 w (mirror_rule L rule) = reverse (expansion 2 w rule).
Proof.
  unfold mirror_rule. fold w.
  rewrite <- (length_expansion 2 w rule) at 1.
  rewrite <- (length_reverse (expansion 2 w rule)).
  apply expansion_digits_value, Forall_reverse, expansion_range. lia.
Qed.

Lemma mirror_rule_involutive : mirror_rule L (mirror_rule L rule) = rule.
Proof.
  unfold mirror_rule at 1. fold w.
  rewrite mirror_rule_expansion, reverse_involutive.
  rewrite digits_value_expansion by lia.
  apply Z.mod_small. subst w.
  assert (0 < 2 ^ Z.of_nat L) by (apply Z.pow_pos_nonneg; lia).
  rewrite Z2Nat.id by lia. done.
Qed.

End Mirror.

(** X13. The index-reversal mapping between the two numbering schemes: with
    [mirror_rule], the rule number whose expansion of width [2^L] is read
    backwards, [number_rule] at a rule number is [nks_rule] at its mirror and
    conversely; the mirror stays in [[0, 2^(2^L))] and mirroring twice gives
    the rule number back. *)
Theorem X13_mirror_rule (state : list Z) (rule : Z) :
  binary state →
  0 ≤ rule < 2 ^ (2 ^ Z.of_nat (length state)) →
  0 ≤ mirror_rule (length state) rule < 2 ^ (2 ^ Z.of_nat (length state))
  ∧ number_rule state rule = nks_rule state (mirror_rule (length state) rule)
  ∧ nks_rule state rule = number_rule state (mirror_rule (length state) rule)
  ∧ mirror_rule (length state) (mirror_rule (length state) rule) = rule.
Proof.
  intros Hbin Hrule.
  pose proof (mirror_rule_range (length state) rule) as Hmirror.
  pose proof (state_value_range state Hbin) as Hs.
  destruct (rule_width state) as [Hw H1].
  split; [done|]. split; [|split; [|by apply mirror_rule_involutive]].
  - rewrite number_rule_lookup, nks_rule_lookup by done.
    rewrite mirror_rule_expansion.
    rewrite reverse_lookup by (rewrite length_expansion; lia).
    rewrite length_expansion. do 2 f_equal. lia.
  - rewrite number_rule_lookup, nks_rule_lookup by done.
    rewrite mirror_rule_expansion.
    rewrite reverse_lookup by (rewrite length_expansion; lia).
    rewrite length_expansion. do 2 f_equal. lia.
Qed.

Lemma X13_mirror_rule_witness :
  0 ≤ mirror_rule (length [1; 1; 0]) 110 < 2 ^ (2 ^ Z.of_nat (length [1; 1; 0]))
  ∧ number_rule [1; 1; 0] 110 = nks_rule [1; 1; 0] (mirror_rule (length [1; 1; 0]) 110)
  ∧ nks_rule [1; 1; 0] 110 = number_rule [1; 1; 0] (mirror_rule (length [1; 1; 0]) 110)
  ∧ mirror_rule (length [1; 1; 0]) (mirror_rule (length [1; 1; 0]) 110) = 110.
Proof.
  apply (X13_mirror_rule [1; 1; 0] 110).
  - repeat (constructor; [cbn; lia|]). constructor.
  - simpl. lia.
Defined.

(** * Further properties of the totalistic rule *)

Lemma sum_permutation (l1 l2 : list Z) :
  l1 ≡ₚ l2 → foldl Z.add 0 l1 = foldl Z.add 0 l2.
Proof.
  induction 1 as [|x l1 l2 _ IH|x y l|l1 l2 l3 _ IH1 _ IH2]; cbn [foldl].
  - done.
  - by rewrite (sum_from (0 + x) l1), (sum_from (0 + x) l2), IH.
  - rewrite (sum_from (0 + y + x) l), (sum_from (0 + x + y) l). lia.
  - congruence.
Qed.

Lemma totalistic_rule_value (k rule : Z) (state : list Z) :
  2 ≤ k ≤ 36 → 0 ≤ rule < k ^ (3 * k - 2) →
  cell_states k state → (length state ≤ 3)%nat →
  totalistic_rule state k rule = Ok ((rule `div` k ^ foldl Z.add 0 state) `mod` k).
Proof.
  intros Hk Hrule Hcells Hlen.
  pose proof (sum_bound k state Hcells) as Hsum.
  apply totalistic_rule_digit; [lia..|]. nia.
Qed.

(** X14. On its documented domain the totalistic rule returns a cell state:
    for [k] in [[2, 36]], a rule number below [k^(3k-2)] and a neighborhood
    of at most 3 cells in [[0, k-1]], the result is the base-[k] digit of the
    rule number at the position of the neighborhood sum, a value in
    [[0, k-1]]. *)
Theorem X14_totalistic_rule_digit (k rule : Z) (state : list Z) :
  2 ≤ k ≤ 36 → 0 ≤ rule < k ^ (3 * k - 2) →
  cell_states k state → (length state ≤ 3)%nat →
  ∃ v, totalistic_rule state k rule = Ok v
       ∧ v = (rule `div` k ^ foldl Z.add 0 state) `mod` k
       ∧ 0 ≤ v ≤ k - 1.
Proof.
  intros Hk Hrule Hcells Hlen. eexists. split; [by apply totalistic_rule_value|].
  split; [done|].
  pose proof (Z.mod_pos_bound (rule `div` k ^ foldl Z.add 0 state) k). lia.
Qed.

Lemma X14_totalistic_rule_digit_witness :
  ∃ v, totalistic_rule [2; 0; 1] 3 777 = Ok v
       ∧ v = (777 `div` 3 ^ foldl Z.add 0 [2; 0; 1]) `mod` 3
       ∧ 0 ≤ v ≤ 3 - 1.
Proof.
  apply (X14_totalistic_rule_digit 3 777 [2; 0; 1]).
  - lia.
  - simpl. lia.
  - repeat (constructor; [cbn; lia|]). constructor.
  - simpl. lia.
Defined.

(** X15. The totalistic rule does not see the arrangement of the cells: on
    two neighborhoods that are permutations of each other, the mirror image
    among them, it gives the same result or raises the same exception, for
    every [k] and rule number. *)
Theorem X15_totalistic_rule_permutation (k rule : Z) (state state' : list Z) :
  state ≡ₚ state' →
  totalistic_rule state k rule = totalistic_rule state' k rule
  ∧ totalistic_rule (reverse state) k rule = totalistic_rule state k rule.
Proof.
  intros Hperm. unfold totalistic_rule. split.
  - by rewrite (sum_permutation state state' Hperm).
  - by rewrite (sum_permutation (reverse state) state (reverse_Permutation state)).
Qed.

Lemma X15_totalistic_rule_permutation_witness :
  totalistic_rule [2; 0; 1] 3 777 = totalistic_rule [0; 1; 2] 3 777
  ∧ totalistic_rule (reverse [2; 0; 1]) 3 777 = totalistic_rule [2; 0; 1] 3 777.
Proof.
  apply (X15_totalistic_rule_permutation 3 777 [2; 0; 1] [0; 1; 2]).
  apply (Permutation_trans (l' := [0; 2; 1])).
  - apply (Permutation_swap 0 2 [1]).
  - apply Permutation_skip. apply (Permutation_swap 1 2 []).
Defined.

(** X16. Outside the bases that [np.base_repr] knows, and for a negative
    neighborhood sum, the totalistic rule fails otherwise than by its range
    error: with [k < 2] or [k > 36] it raises [ValueError] for every rule
    number and neighborhood; with [k] in [[2, 36]], a rule number below
    [k^(3k-2)] and a negative sum it raises [IndexError]. *)
Theorem X16_totalistic_rule_other_errors (k rule : Z) (state : list Z) :
  (k < 2 ∨ 36 < k → totalistic_rule state k rule = Raise ValueError)
  ∧ (2 ≤ k ≤ 36 → 0 ≤ rule < k ^ (3 * k - 2) → foldl Z.add 0 state < 0 →
     totalistic_rule state k rule = Raise IndexError).
Proof.
  split.
  - intros Hk. unfold totalistic_rule, base_repr.
    change (Z.of_nat (length digits)) with 36.
    destruct (Z.ltb_spec 36 k); [done|].
    by cmp_true (k <? 2) ltac:(lia).
  - intros Hk Hrule Hsum.
    rewrite totalistic_rule_in_range; [|lia..|].
    + unfold Py.index. rewrite length_fmap, length_expansion.
      cmp_false (3 * k - 3 - foldl Z.add 0 state <? Z.of_nat (Z.to_nat (3 * k - 2)))
        ltac:(lia).
      rewrite andb_false_r.
      cmp_false (3 * k - 3 - foldl Z.add 0 state <? 0) ltac:(lia).
      by rewrite andb_false_r.
    + destruct (Nat.le_gt_cases (length (natural_digits k rule)) (Z.to_nat (3 * k - 2)))
        as [|Hgt]; [done|].
      apply (natural_digits_length k) in Hgt; try lia.
      rewrite Z2Nat.id in Hgt; lia.
Qed.

Lemma X16_totalistic_rule_other_errors_witness :
  totalistic_rule [0; 1; 0] 37 5 = Raise ValueError
  ∧ totalistic_rule [0; -1; 0] 3 777 = Raise IndexError.
Proof.
  split.
  - apply (X16_totalistic_rule_other_errors 37 5 [0; 1; 0]). lia.
  - apply (X16_totalistic_rule_other_errors 3 777 [0; -1; 0]); simpl; lia.
Defined.

(** * The table rule *)

Lemma str_of_int_nonneg (x : Z) :
  0 ≤ x → str_of_int x = digit_char <$> natural_digits 10 x.
Proof.
  intros Hx. unfold str_of_int.
  cmp_false (x <? 0) ltac:(lia).
  rewrite Z.abs_eq by done. cbn [app]. unfold natural_digits.
  pose proof (repr_loop_msb 10 (repr_fuel x) x []) as Hrev.
  rewrite app_nil_r in Hrev.
  destruct (repr_loop (repr_fuel x) 10 x []) as [|c res] eqn:Hloop.
  - destruct (msb_digits (repr_fuel x) 10 x); [done|]. discriminate.
  - rewrite Hrev. destruct (msb_digits (repr_fuel x) 10 x); [|done].
    apply (f_equal length) in Hrev.
    rewrite length_reverse in Hrev. discriminate.
Qed.

Lemma natural_digits_single (x : Z) : 0 ≤ x ≤ 9 → natural_digits 10 x = [x].
Proof.
  intros Hx.
  destruct (natural_digits_pad 10 ltac:(lia) 1 x) as [Hlen Hpad]; [lia|lia|].
  pose proof (natural_digits_nonempty 10 x) as Hne.
  replace (1 - length (natural_digits 10 x))%nat with 0%nat in Hpad by lia.
  cbn in Hpad. rewrite Hpad. f_equal. apply Z.mod_small. lia.
Qed.

Lemma str_of_int_digit (x : Z) : 0 ≤ x ≤ 9 → str_of_int x = [digit_char x].
Proof.
  intros Hx. by rewrite str_of_int_nonneg, natural_digits_single by lia.
Qed.

Lemma length_str_of_int (x : Z) :
  0 ≤ x → (1 ≤ length (str_of_int x))%nat ∧ (10 ≤ x → (2 ≤ length (str_of_int x))%nat).
Proof.
  intros Hx. rewrite str_of_int_nonneg, length_fmap by done.
  split; [apply natural_digits_nonempty|].
  intros Hge. apply (natural_digits_length 10 ltac:(lia) 1 x) in Hge; lia.
Qed.

Lemma state_repr_app (l1 l2 : list Z) :
  state_repr (l1 ++ l2) = state_repr l1 ++ state_repr l2.
Proof. unfold state_repr. by rewrite fmap_app, concat_app. Qed.

Lemma state_repr_digits (state : list Z) :
  Forall (λ c, 0 ≤ c ≤ 9) state → state_repr state = digit_char <$> state.
Proof.
  unfold state_repr. induction 1 as [|c l Hc _ IH]; [done|].
  cbn. by rewrite IH, str_of_int_digit.
Qed.

Lemma state_repr_inj (state state' : list Z) :
  Forall (λ c, 0 ≤ c ≤ 9) state → Forall (λ c, 0 ≤ c ≤ 9) state' →
  state_repr state = state_repr state' → state = state'.
Proof.
  intros H1 H2. rewrite !state_repr_digits by done.
  apply (digit_chars_inj 10 1 ltac:(lia) ltac:(lia)).
  - eapply Forall_impl; [exact H1|]. cbn. lia.
  - eapply Forall_impl; [exact H2|]. cbn. lia.
Qed.

Lemma table_rule_found (state : list Z) (tbl : gmap (list ascii) Z) (v : Z) :
  tbl !! state_repr state = Some v → table_rule state tbl = Ok v.
Proof.
  intros Hv. unfold table_rule. rewrite Hv.
  by rewrite bool_decide_eq_true_2.
Qed.

Lemma table_rule_missing (state : list Z) (tbl : gmap (list ascii) Z) :
  tbl !! state_repr state = None →
  table_rule state tbl
  = Raise (Exception (String.append "could not find state '"
                        (String.append (string_of_list_ascii (state_repr state))
                                       "' in table"))).
Proof.
  intros Hv. unfold table_rule. rewrite Hv.
  rewrite bool_decide_eq_false_2; [done|]. by intros [? ?].
Qed.

(** X17. Storing and looking up: for neighborhoods whose cells are the single
    digits 0 to 9, the keys of distinct neighborhoods are distinct; an entry
    stored under the key of one neighborhood is what the table rule returns
    for it, and the rule's result for every other such neighborhood is
    unchanged. *)
Theorem X17_table_rule_insert (state state' : list Z) (tbl : gmap (list ascii) Z) (v : Z) :
  Forall (λ c, 0 ≤ c ≤ 9) state → Forall (λ c, 0 ≤ c ≤ 9) state' →
  state_repr state = digit_char <$> state
  ∧ table_rule state (<[state_repr state := v]> tbl) = Ok v
  ∧ (state' ≠ state →
     table_rule state' (<[state_repr state := v]> tbl) = table_rule state' tbl).
Proof.
  intros H1 H2. split; [by apply state_repr_digits|]. split.
  - apply table_rule_found, lookup_insert_eq.
  - intros Hne. unfold table_rule.
    rewrite lookup_insert_ne; [done|].
    intros Heq. apply Hne. symmetry. by apply state_repr_inj.
Qed.

Lemma X17_table_rule_insert_witness :
  state_repr [1; 0; 1] = digit_char <$> [1; 0; 1]
  ∧ table_rule [1; 0; 1] (<[state_repr [1; 0; 1] := 7]> ∅) = Ok 7
  ∧ ([1; 1; 1] ≠ [1; 0; 1] →
     table_rule [1; 1; 1] (<[state_repr [1; 0; 1] := 7]> ∅) = table_rule [1; 1; 1] ∅).
Proof.
  apply (X17_table_rule_insert [1; 0; 1] [1; 1; 1] ∅ 7);
    repeat (constructor; [cbn; lia|]); constructor.
Defined.

(** X18. Cells of two or more digits make the key ambiguous: a cell
    [x >= 10] is rendered as its decimal digits, and the table rule cannot
    tell it from the sequence of those digits as separate cells. *)
Theorem X18_table_rule_ambiguous (l1 l2 : list Z) (x : Z) (tbl : gmap (list ascii) Z) :
  10 ≤ x →
  (2 ≤ length (natural_digits 10 x))%nat
  ∧ Forall (λ c, 0 ≤ c ≤ 9) (natural_digits 10 x)
  ∧ state_repr (l1 ++ x :: l2) = state_repr (l1 ++ natural_digits 10 x ++ l2)
  ∧ table_rule (l1 ++ x :: l2) tbl = table_rule (l1 ++ natural_digits 10 x ++ l2) tbl.
Proof.
  intros Hx.
  assert (Forall (λ c, 0 ≤ c ≤ 9) (natural_digits 10 x)) as Hdigits.
  { eapply Forall_impl; [apply (natural_digits_range 10); lia|]. cbn. lia. }
  assert (state_repr (l1 ++ x :: l2) = state_repr (l1 ++ natural_digits 10 x ++ l2)) as Heq.
  { rewrite (state_repr_app l1 (x :: l2)), (state_repr_app l1 (_ ++ l2)).
    rewrite (state_repr_app (natural_digits 10 x) l2).
    rewrite (state_repr_digits (natural_digits 10 x)) by done.
    change (state_repr (x :: l2)) with (str_of_int x ++ state_repr l2).
    by rewrite str_of_int_nonneg by lia. }
  split; [|split; [done|split; [done|]]].
  - apply (natural_digits_length 10 ltac:(lia) 1 x); lia.
  - unfold table_rule. by rewrite Heq.
Qed.

Lemma X18_table_rule_ambiguous_witness :
  (2 ≤ length (natural_digits 10 12))%nat
  ∧ Forall (λ c, 0 ≤ c ≤ 9) (natural_digits 10 12)
  ∧ state_repr ([3] ++ 12 :: [4]) = state_repr ([3] ++ natural_digits 10 12 ++ [4])
  ∧ table_rule ([3] ++ 12 :: [4]) ∅ = table_rule ([3] ++ natural_digits 10 12 ++ [4]) ∅.
Proof. apply (X18_table_rule_ambiguous [3] [4] 12 ∅). lia. Defined.

(** * Further properties of the random rule table *)

Lemma int_of_char_range (c : ascii) (k v : Z) :
  2 ≤ k ≤ 36 → int_of_char c k = Ok v → 0 ≤ v ≤ k - 1.
Proof.
  intros Hk. unfold int_of_char.
  rewrite !(proj2 (Z.eqb_neq k 0)) by lia.
  destruct (false || ((2 <=? k) && (k <=? 36))); [|done].
  unfold digit_value.
  destruct (find_index c digits) as [i|].
  - destruct (Z.ltb_spec (Z.of_nat i) k); [|done]. intros [= <-]. lia.
  - destruct (find_index c lower_digits) as [i|]; [|done]. cbn.
    destruct (Z.ltb_spec (Z.of_nat i) k); [|done]. intros [= <-]. lia.
Qed.

Section TableStep.

Variable src : random_source.
Variable k : Z.
Variable lambda_val : Q.
Variable q : Z.
Variable strong_quiescence isotropic : bool.
Variable other_states : list Z.

(** What a step that returns has stored, branch by branch. *)
Lemma table_step_inv (st st' : table_state) (s : list ascii) :
  table_step src k lambda_val q strong_quiescence isotropic other_states st s = Ok st' →
  ∃ v, table st' = <[s := v]> (table st)
       ∧ ((strong_quiescence && uniform s = true
           ∧ ∃ c, Py.index s 0 = Ok c ∧ int_of_char c k = Ok v)
          ∨ (strong_quiescence && uniform s = false
             ∧ (table st !! reverse s = Some v ∨ v = q ∨ v ∈ other_states))).
Proof.
  unfold table_step.
  destruct (strong_quiescence && uniform s) eqn:Hstrong.
  - destruct (Py.index s 0) as [c|] eqn:Hc; [|done]. cbn [mbind result_bind].
    destruct (int_of_char c k) as [v|] eqn:Hv; [|done]. cbn [mbind result_bind].
    intros [= <-]. exists v. split; [done|]. left. split; [done|]. by exists c.
  - destruct (isotropic && bool_decide (is_Some (table st !! reverse s))).
    + destruct (table st !! reverse s) as [v|]; [|done]. cbn.
      intros [= <-]. exists v. split; [done|]. right. split; [done|]. by left.
    + unfold Random.random. destruct (Qlt_le_dec _ _).
      * intros [= <-]. exists q. split; [done|]. right. split; [done|]. right. by left.
      * unfold Random.choice.
        destruct (other_states !! _) as [x|] eqn:Hx; [|done]. cbn.
        intros [= <-]. exists x. split; [done|]. right. split; [done|]. right. right.
        by eapply list_elem_of_lookup_2.
Qed.

(** A property of the table that every returning step keeps holds of the
    table that the loop returns. *)
Lemma table_loop_preserves (I : gmap (list ascii) Z → Prop) (states : list (list ascii)) :
  (∀ st s st', I (table st) →
     table_step src k lambda_val q strong_quiescence isotropic other_states st s = Ok st' →
     I (table st')) →
  ∀ st st', I (table st) →
    table_loop src k lambda_val q strong_quiescence isotropic other_states st states = Ok st' →
    I (table st').
Proof.
  intros Hstep. induction states as [|s states IH]; intros st st' HI Hloop.
  - cbn in Hloop. by injection Hloop as <-.
  - cbn [table_loop] in Hloop.
    destruct (table_step _ _ _ _ _ _ _ st s) as [st1|] eqn:Hst1; [|done].
    cbn in Hloop. eapply IH; [|exact Hloop]. by eapply Hstep.
Qed.

End TableStep.

(** The generator, unfolded down to its loop over the neighborhood strings. *)
Lemma random_rule_table_loop (src : random_source) (k r : Z)
    (lambda_val : option Q) (quiescent_state : option Z)
    (strong_quiescence isotropic : bool) :
  2 ≤ k ≤ 36 → 0 ≤ r →
  (∀ q, quiescent_state = Some q → 0 ≤ q ≤ k - 1) →
  ∃ lam q pos st,
    0 ≤ q ≤ k - 1
    ∧ (∀ q', quiescent_state = Some q' → q = q')
    ∧ table_loop src k lam q strong_quiescence isotropic
        (filter (λ x, x ≠ q) (seqZ 0 k))
        {| table := ∅; quiescent_state_count := 0; rng_pos := pos |}
        ((λ i, word k (Z.to_nat (2 * r + 1)) (Z.of_nat i))
           <$> seq 0 (Z.to_nat (k ^ (2 * r + 1))))
      = Ok st
    ∧ random_rule_table src k r lambda_val quiescent_state strong_quiescence isotropic
      = Ok (table st,
            (inject_Z (k ^ (2 * r + 1) - quiescent_state_count st)
             / inject_Z (k ^ (2 * r + 1)))%Q,
            q)
    ∧ (∀ s, is_Some (table st !! s) ↔
         ∃ i, 0 ≤ i < k ^ (2 * r + 1) ∧ s = word k (Z.to_nat (2 * r + 1)) i).
Proof.
  intros Hk Hr Hqs.
  set (n := Z.to_nat (2 * r + 1)).
  assert (2 * r + 1 = Z.of_nat n) as Hn by lia.
  assert (1 ≤ n)%nat as Hn1 by lia.
  assert (0 < k ^ (2 * r + 1)) as Hpos by (apply Z.pow_pos_nonneg; lia).
  unfold random_rule_table. rewrite Hn in Hpos |- *.
  rewrite all_states_words by done.
  set (states := (λ i, word k n (Z.of_nat i)) <$> seq 0 (Z.to_nat (k ^ Z.of_nat n))).
  cbn [mbind result_bind].
  assert (∃ lam, match lambda_val with
                 | Some l => Ok l
                 | None => if k =? 0 then Raise ZeroDivisionError
                           else Ok (1 - 1 / inject_Z k)%Q
                 end = Ok lam) as [lam ->].
  { destruct lambda_val; [by eexists|].
    rewrite (proj2 (Z.eqb_neq k 0)) by lia. by eexists. }
  assert (∃ q pos, match quiescent_state with
                   | Some q => Ok (q, 0%nat)
                   | None => Random.randint src k 0
                   end = Ok (q, pos)
                   ∧ 0 ≤ q ≤ k - 1
                   ∧ ∀ q', quiescent_state = Some q' → q = q') as (q & pos & -> & Hq & Hq').
  { destruct quiescent_state as [q|].
    - exists q, 0%nat. split; [done|]. split; [by apply Hqs|]. by intros ? [= ->].
    - unfold Random.randint. cmp_false (k <=? 0) ltac:(lia).
      eexists _, _. split; [done|]. split; [|done].
      pose proof (Z.mod_pos_bound (Z.of_nat (rand_int src 0)) k). lia. }
  cbn [mbind result_bind].
  cmp_true (0 <=? q) ltac:(lia). cmp_true (q <=? k - 1) ltac:(lia).
  cbn [andb negb].
  destruct (other_states_spec k q) as [Hne Hnotin]; [lia|].
  destruct (table_loop_spec src k lam q strong_quiescence isotropic
              (filter (λ x, x ≠ q) (seqZ 0 k)) Hk Hne Hnotin states []
              {| table := ∅; quiescent_state_count := 0; rng_pos := pos |})
    as (st & Hloop & Hinv).
  { split; [|split; [|split]]; cbn.
    - intros s. rewrite lookup_empty, elem_of_nil. split; [by intros [? ?]|done].
    - intros _ s Hs. by apply elem_of_nil in Hs.
    - unfold quiescent_entries. by rewrite map_filter_empty, map_size_empty.
    - by rewrite map_size_empty. }
  { rewrite app_nil_l. apply NoDup_words; done. }
  { apply Forall_forall. intros s Hs.
    apply (elem_of_words k n Hk Hn1) in Hs as (i & _ & ->).
    apply (word_head k n); [done|lia]. }
  exists lam, q, pos, st. rewrite Hloop. cbn [mbind result_bind].
  rewrite (proj2 (Z.eqb_neq _ 0)) by lia.
  do 4 (split; [done|]).
  intros s. destruct Hinv as (Hdom & _). rewrite Hdom, app_nil_l.
  apply (elem_of_words k n Hk Hn1).
Qed.

Lemma uniform_replicate (n : nat) (c : ascii) : (1 ≤ n)%nat → uniform (replicate n c) = true.
Proof.
  intros Hn. unfold uniform. apply bool_decide_eq_true.
  destruct n as [|n]; [lia|]. clear Hn.
  induction n as [|n IH]; [done|].
  change (replicate (S (S n)) c) with (c :: replicate (S n) c).
  cbn [remove_dups].
  destruct (decide_rel elem_of c (replicate (S n) c)) as [_|Hnot]; [done|].
  exfalso. apply Hnot. cbn. left.
Qed.

Lemma word_digits (k : Z) (n : nat) (s : list ascii) :
  2 ≤ k ≤ 36 →
  (∃ i, 0 ≤ i < k ^ Z.of_nat n ∧ s = word k n i)
  ↔ (∃ ds, length ds = n ∧ cell_states k ds ∧ s = digit_char <$> ds).
Proof.
  intros Hk. split.
  - intros (i & Hi & ->). exists (expansion k n i).
    split; [apply length_expansion|]. split; [|done].
    eapply Forall_impl; [apply (expansion_range k); lia|]. cbn. lia.
  - intros (ds & Hlen & Hcells & ->).
    assert (Forall (λ d, 0 ≤ d < k) ds) as Hrange.
    { eapply Forall_impl; [exact Hcells|]. cbn. lia. }
    exists (digits_value k ds). split.
    + rewrite <- Hlen. apply digits_value_range; [lia|done].
    + unfold word. rewrite <- Hlen. by rewrite expansion_digits_value.
Qed.

Lemma table_values_step (src : random_source) (k : Z) (lam : Q) (q : Z)
    (strong iso : bool) (st st' : table_state) (s : list ascii) :
  2 ≤ k ≤ 36 → 0 ≤ q ≤ k - 1 →
  map_Forall (λ _ v, 0 ≤ v ≤ k - 1) (table st) →
  table_step src k lam q strong iso (filter (λ x, x ≠ q) (seqZ 0 k)) st s = Ok st' →
  map_Forall (λ _ v, 0 ≤ v ≤ k - 1) (table st').
Proof.
  intros Hk Hq Hall Hstep.
  apply table_step_inv in Hstep as (v & -> & Hcases).
  apply map_Forall_insert_2; [|done].
  destruct Hcases as [(_ & c & _ & Hv)|(_ & [Hv|[->|Hv]])].
  - by eapply int_of_char_range.
  - by apply (Hall _ _ Hv).
  - done.
  - apply list_elem_of_filter in Hv as [_ Hv]. apply elem_of_seqZ in Hv. lia.
Qed.

Lemma table_strong_step (src : random_source) (k : Z) (lam : Q) (q : Z)
    (iso : bool) (others : list Z) (st st' : table_state) (s : list ascii) :
  (∀ t v, uniform t = true → table st !! t = Some v →
     ∃ c, Py.index t 0 = Ok c ∧ int_of_char c k = Ok v) →
  table_step src k lam q true iso others st s = Ok st' →
  ∀ t v, uniform t = true → table st' !! t = Some v →
    ∃ c, Py.index t 0 = Ok c ∧ int_of_char c k = Ok v.
Proof.
  intros Hall Hstep t v Ht Hv.
  apply table_step_inv in Hstep as (v' & Heq & Hcases). rewrite Heq in Hv.
  destruct (decide (s = t)) as [->|Hne].
  - rewrite lookup_insert_eq in Hv. injection Hv as ->.
    destruct Hcases as [(_ & Hc)|(Hfalse & _)]; [done|].
    cbn in Hfalse. congruence.
  - rewrite lookup_insert_ne in Hv by done. by eapply Hall.
Qed.

(** X19. Strong quiescence: with [strong_quiescence=True] the returned table
    maps every uniform neighborhood to its own state, the string of [2r+1]
    copies of the digit [d] to [d], for every [d] in [[0, k-1]] and every
    outcome of the random draws. *)
Theorem X19_strong_quiescence (src : random_source) (k r : Z)
    (lambda_val : option Q) (quiescent_state : option Z) (isotropic : bool) :
  2 ≤ k ≤ 36 → 1 ≤ r →
  (∀ q, quiescent_state = Some q → 0 ≤ q ≤ k - 1) →
  ∃ tbl lam q,
    random_rule_table src k r lambda_val quiescent_state true isotropic
    = Ok (tbl, lam, q)
    ∧ ∀ d, 0 ≤ d ≤ k - 1 →
        tbl !! replicate (Z.to_nat (2 * r + 1)) (digit_char d) = Some d.
Proof.
  intros Hk Hr Hqs.
  destruct (random_rule_table_loop src k r lambda_val quiescent_state true isotropic
              Hk ltac:(lia) Hqs)
    as (lam & q & pos & st & Hq & _ & Hloop & Hres & Hdom).
  exists (table st). eexists _, q. split; [exact Hres|].
  intros d Hd.
  remember (Z.to_nat (2 * r + 1)) as n eqn:Hn.
  assert (is_Some (table st !! replicate n (digit_char d))) as [v Hv].
  { apply Hdom. replace (2 * r + 1) with (Z.of_nat n) by lia.
    apply word_digits; [done|]. exists (replicate n d).
    split; [apply length_replicate|]. split; [by apply Forall_replicate|].
    by rewrite fmap_replicate. }
  rewrite Hv. f_equal.
  assert (∀ t v, uniform t = true → table st !! t = Some v →
            ∃ c, Py.index t 0 = Ok c ∧ int_of_char c k = Ok v) as Hstrong.
  { eapply (table_loop_preserves src k lam q true isotropic
              (filter (λ x, x ≠ q) (seqZ 0 k))
              (λ tbl, ∀ t v, uniform t = true → tbl !! t = Some v →
                 ∃ c, Py.index t 0 = Ok c ∧ int_of_char c k = Ok v)); cycle 2.
    - exact Hloop.
    - intros st0 s st1 HI Hstep. by eapply table_strong_step.
    - cbn. intros t v' _. by rewrite lookup_empty. }
  destruct (Hstrong _ v (uniform_replicate n _ ltac:(lia)) Hv) as (c & Hc & Hint).
  destruct n as [|n]; [lia|]. cbn [replicate] in Hc.
  rewrite index_head in Hc. injection Hc as <-.
  rewrite int_of_char_digit in Hint by lia. congruence.
Qed.

Lemma X19_strong_quiescence_witness :
  ∃ tbl lam q,
    random_rule_table alternating_source 3 1 None (Some 0) true false
    = Ok (tbl, lam, q)
    ∧ ∀ d, 0 ≤ d ≤ 3 - 1 →
        tbl !! replicate (Z.to_nat (2 * 1 + 1)) (digit_char d) = Some d.
Proof.
  apply (X19_strong_quiescence alternating_source 3 1 None (Some 0) false).
  - lia.
  - lia.
  - intros q' Hq'. injection Hq' as <-. lia.
Defined.

(** X20. The returned table is total and holds nothing else: whatever the
    flags and the random draws, its keys are exactly the strings of [2r+1]
    digits that render the neighborhoods with cells in [[0, k-1]]. *)
Theorem X20_table_keys (src : random_source) (k r : Z)
    (lambda_val : option Q) (quiescent_state : option Z)
    (strong_quiescence isotropic : bool) :
  2 ≤ k ≤ 36 → 1 ≤ r →
  (∀ q, quiescent_state = Some q → 0 ≤ q ≤ k - 1) →
  ∃ tbl lam q,
    random_rule_table src k r lambda_val quiescent_state strong_quiescence isotropic
    = Ok (tbl, lam, q)
    ∧ ∀ s, is_Some (tbl !! s) ↔
        ∃ cells, Z.of_nat (length cells) = 2 * r + 1 ∧ cell_states k cells
                 ∧ s = digit_char <$> cells.
Proof.
  intros Hk Hr Hqs.
  destruct (random_rule_table_loop src k r lambda_val quiescent_state
              strong_quiescence isotropic Hk ltac:(lia) Hqs)
    as (lam & q & pos & st & Hq & _ & Hloop & Hres & Hdom).
  exists (table st). eexists _, q. split; [exact Hres|].
  intros s. rewrite Hdom.
  replace (k ^ (2 * r + 1)) with (k ^ Z.of_nat (Z.to_nat (2 * r + 1)))
    by (f_equal; lia).
  rewrite word_digits by done.
  split; intros (cells & Hlen & Hrest); exists cells; (split; [lia|done]).
Qed.

Lemma X20_table_keys_witness :
  ∃ tbl lam q,
    random_rule_table alternating_source 2 1 None (Some 0) false true
    = Ok (tbl, lam, q)
    ∧ ∀ s, is_Some (tbl !! s) ↔
        ∃ cells, Z.of_nat (length cells) = 2 * 1 + 1 ∧ cell_states 2 cells
                 ∧ s = digit_char <$> cells.
Proof.
  apply (X20_table_keys alternating_source 2 1 None (Some 0) false true).
  - lia.
  - lia.
  - intros q' Hq'. injection Hq' as <-. lia.
Defined.

Lemma random_rule_table_values (src : random_source) (k r : Z)
    (lambda_val : option Q) (quiescent_state : option Z)
    (strong_quiescence isotropic : bool) :
  2 ≤ k ≤ 36 → 0 ≤ r →
  (∀ q, quiescent_state = Some q → 0 ≤ q ≤ k - 1) →
  ∃ tbl lam q,
    random_rule_table src k r lambda_val quiescent_state strong_quiescence isotropic
    = Ok (tbl, lam, q)
    ∧ 0 ≤ q ≤ k - 1
    ∧ (∀ q0, quiescent_state = Some q0 → q = q0)
    ∧ (∀ s v, tbl !! s = Some v → 0 ≤ v ≤ k - 1)
    ∧ (∀ s, is_Some (tbl !! s) ↔
         ∃ i, 0 ≤ i < k ^ (2 * r + 1) ∧ s = word k (Z.to_nat (2 * r + 1)) i).
Proof.
  intros Hk Hr Hqs.
  destruct (random_rule_table_loop src k r lambda_val quiescent_state
              strong_quiescence isotropic Hk Hr Hqs)
    as (lam & q & pos & st & Hq & Hecho & Hloop & Hres & Hdom).
  exists (table st). eexists _, q. do 3 (split; [done|]). split; [|done].
  eapply (table_loop_preserves src k lam q strong_quiescence isotropic
            (filter (λ x, x ≠ q) (seqZ 0 k))
            (map_Forall (λ _ v, 0 ≤ v ≤ k - 1))); cycle 2.
  - exact Hloop.
  - intros st0 s st1 HI Hstep. by eapply table_values_step.
  - cbn. apply map_Forall_empty.
Qed.

(** X21. The entries of the returned table are cell states, and the
    quiescent state is echoed: every value of the table lies in [[0, k-1]],
    so does the returned quiescent state, and it is the one supplied when one
    was supplied. *)
Theorem X21_table_values (src : random_source) (k r : Z)
    (lambda_val : option Q) (quiescent_state : option Z)
    (strong_quiescence isotropic : bool) :
  2 ≤ k ≤ 36 → 1 ≤ r →
  (∀ q, quiescent_state = Some q → 0 ≤ q ≤ k - 1) →
  ∃ tbl lam q,
    random_rule_table src k r lambda_val quiescent_state strong_quiescence isotropic
    = Ok (tbl, lam, q)
    ∧ 0 ≤ q ≤ k - 1
    ∧ (∀ q0, quiescent_state = Some q0 → q = q0)
    ∧ (∀ s v, tbl !! s = Some v → 0 ≤ v ≤ k - 1).
Proof.
  intros Hk Hr Hqs.
  destruct (random_rule_table_values src k r lambda_val quiescent_state
              strong_quiescence isotropic Hk ltac:(lia) Hqs)
    as (tbl & lam & q & Hres & Hq & Hecho & Hvalues & _).
  by exists tbl, lam, q.
Qed.

Lemma X21_table_values_witness :
  ∃ tbl lam q,
    random_rule_table alternating_source 3 1 (Some (1 # 2)) None true true
    = Ok (tbl, lam, q)
    ∧ 0 ≤ q ≤ 3 - 1
    ∧ (∀ q0, None = Some q0 → q = q0)
    ∧ (∀ s v, tbl !! s = Some v → 0 ≤ v ≤ 3 - 1).
Proof.
  apply (X21_table_values alternating_source 3 1 (Some (1 # 2)) None true true).
  - lia.
  - lia.
  - intros q' Hq'. discriminate Hq'.
Defined.

(** X22. A quiescent state outside [[0, k-1]] is refused, for [k] in
    [[2, 36]] and whatever the other arguments and the random draws, with the
    exception that says so. *)
Theorem X22_quiescent_state_refused (src : random_source) (k r q : Z)
    (lambda_val : option Q) (strong_quiescence isotropic : bool) :
  2 ≤ k ≤ 36 → 0 ≤ r → ¬ (0 ≤ q ≤ k - 1) →
  random_rule_table src k r lambda_val (Some q) strong_quiescence isotropic
  = Raise (Exception "quiescent state must be a number in {0,...,k - 1}").
Proof.
  intros Hk Hr Hq. unfold random_rule_table.
  replace (2 * r + 1) with (Z.of_nat (Z.to_nat (2 * r + 1))) by lia.
  rewrite all_states_words by (done || lia). cbn [mbind result_bind].
  assert (∃ lam, match lambda_val with
                 | Some l => Ok l
                 | None => if k =? 0 then Raise ZeroDivisionError
                           else Ok (1 - 1 / inject_Z k)%Q
                 end = Ok lam) as [lam ->].
  { destruct lambda_val; [by eexists|].
    rewrite (proj2 (Z.eqb_neq k 0)) by lia. by eexists. }
  cbn [mbind result_bind].
  destruct (Z.leb_spec 0 q); [|done].
  by cmp_false (q <=? k - 1) ltac:(lia).
Qed.

Lemma X22_quiescent_state_refused_witness :
  random_rule_table alternating_source 3 1 None (Some 3) false false
  = Raise (Exception "quiescent state must be a number in {0,...,k - 1}").
Proof.
  apply (X22_quiescent_state_refused alternating_source 3 1 3 None false false); lia.
Defined.

(** X23. A number of colors that the digit alphabet cannot render is
    refused: with [k = 1] or [k > 36] the generator raises [ValueError],
    whatever the other arguments and the random draws. *)
Theorem X23_colors_refused (src : random_source) (k r : Z)
    (lambda_val : option Q) (quiescent_state : option Z)
    (strong_quiescence isotropic : bool) :
  k = 1 ∨ 36 < k → 0 ≤ r →
  random_rule_table src k r lambda_val quiescent_state strong_quiescence isotropic
  = Raise ValueError.
Proof.
  intros Hk Hr. unfold random_rule_table, all_states.
  cmp_false (2 * r + 1 <? 0) ltac:(lia).
  assert (0 < k ^ (2 * r + 1)) as Hpos by (apply Z.pow_pos_nonneg; lia).
  destruct (Z.to_nat (k ^ (2 * r + 1))) as [|m] eqn:Hm; [lia|].
  assert (base_repr (Z.of_nat 0) k = Raise ValueError) as Hrepr.
  { unfold base_repr. change (Z.of_nat (length digits)) with 36.
    destruct (Z.ltb_spec 36 k); [done|].
    by cmp_true (k <? 2) ltac:(lia). }
  cbn [seq]. cbn. rewrite Hrepr. reflexivity.
Qed.

Lemma X23_colors_refused_witness :
  random_rule_table alternating_source 37 1 None (Some 0) false false = Raise ValueError.
Proof.
  apply (X23_colors_refused alternating_source 37 1 None (Some 0) false false); lia.
Defined.

(** * The initial rows *)





(** * The evolver with the rule evaluators *)

Lemma neighborhood_Forall (P : Z → Prop) (r : nat) (cells : list Z) (c : nat) :
  cells ≠ [] → Forall P cells → Forall P (neighborhood r cells c).
Proof.
  intros Hne Hcells. unfold neighborhood.
  apply Forall_fmap, Forall_forall. intros t _. cbn.
  apply (Forall_lookup_1 P cells (wrap_index (length cells)
           (Z.of_nat c + Z.of_nat t - Z.of_nat r))); [done|].
  apply list_lookup_lookup_total_lt, wrap_index_lt.
  destruct cells; [done|cbn; lia].
Qed.

Lemma length_neighborhood (r : nat) (cells : list Z) (c : nat) :
  length (neighborhood r cells c) = (2 * r + 1)%nat.
Proof. unfold neighborhood. by rewrite length_fmap, length_seq. Qed.

Lemma sync_row_Forall (P : Z → Prop) (f : list Z → nat → Z) (r : nat) (row : list Z) :
  (∀ c, (c < length row)%nat → P (f (neighborhood r row c) c)) →
  Forall P (sync_row f r row).
Proof.
  intros Hf. unfold sync_row. apply Forall_fmap, Forall_forall.
  intros c Hc. apply elem_of_seq in Hc. cbn. apply Hf. lia.
Qed.

(** A rule function that returns cell values with the property [P] on the
    neighborhoods of rows with that property keeps [evolve] from raising and
    the rows within the property. *)
Lemma evolve_exn_closed (P : Z → Prop) (apply_rule : list Z → nat → result Z)
    (f : list Z → nat → Z) (r : nat) (init : list Z) (n_steps : nat) :
  (1 ≤ n_steps)%nat → (1 ≤ r ≤ length init)%nat → Forall P init →
  (∀ s c, Forall P s → length s = (2 * r + 1)%nat →
     apply_rule s c = Ok (f s c) ∧ P (f s c)) →
  ∃ g, evolve_exn apply_rule r init n_steps = Ok g
       ∧ length g = n_steps
       ∧ g !! 0%nat = Some init
       ∧ Forall (λ row, Forall P row ∧ length row = length init) g.
Proof.
  intros Hn Hr Hinit Hrule.
  assert (∀ i, Forall P (Nat.iter i (sync_row f r) init)) as Horbit.
  { induction i as [|i IH]; [done|]. cbn [Nat.iter nat_rect].
    apply sync_row_Forall. intros c Hc.
    apply Hrule; [|apply length_neighborhood].
    apply neighborhood_Forall; [|done].
    intros Hnil. rewrite Hnil in Hc. cbn in Hc. lia. }
  eexists. split.
  { apply (evolve_exn_orbit apply_rule f); [done..|].
    intros i c _ Hc. apply Hrule; [|apply length_neighborhood].
    apply neighborhood_Forall; [|done].
    intros Hnil. apply (f_equal length) in Hnil.
    rewrite length_orbit in Hnil. cbn in Hnil. lia. }
  rewrite length_fmap, length_seq. split; [done|]. split.
  - rewrite list_lookup_fmap, lookup_seq_lt by lia. done.
  - apply Forall_fmap, Forall_forall. intros i _. cbn.
    split; [apply Horbit|apply length_orbit].
Qed.

(** X26. Evolving with a binary rule: with [nks_rule] or [number_rule] at a
    rule number in [[0, 2^(2^(2r+1)))] as the rule function, [evolve] returns
    a grid of [n_steps] rows of the length of the initial binary row, all
    binary; the rule never raises on the way. *)
Theorem X26_evolve_binary_rule (rule : Z) (r : nat) (init : list Z) (n_steps : nat) :
  (1 ≤ n_steps)%nat → (1 ≤ r ≤ length init)%nat → binary init →
  0 ≤ rule < 2 ^ (2 ^ Z.of_nat (2 * r + 1)) →
  (∃ g, evolve_exn (λ s _, nks_rule s rule) r init n_steps = Ok g
        ∧ length g = n_steps ∧ g !! 0%nat = Some init
        ∧ Forall (λ row, binary row ∧ length row = length init) g)
  ∧ (∃ g, evolve_exn (λ s _, number_rule s rule) r init n_steps = Ok g
          ∧ length g = n_steps ∧ g !! 0%nat = Some init
          ∧ Forall (λ row, binary row ∧ length row = length init) g).
Proof.
  intros Hn Hr Hinit Hrule. split.
  - apply (evolve_exn_closed (λ b, b = 0 ∨ b = 1) (λ s _, nks_rule s rule)
             (λ s _, (rule `div` 2 ^ digits_value 2 s) `mod` 2)); try done.
    intros s c Hs Hlen. split; [|apply mod_2_cases].
    apply nks_rule_value; [done|]. by rewrite Hlen.
  - apply (evolve_exn_closed (λ b, b = 0 ∨ b = 1) (λ s _, number_rule s rule)
             (λ s _, (rule `div` 2 ^ (2 ^ Z.of_nat (length s) - 1 - digits_value 2 s))
                     `mod` 2)); try done.
    intros s c Hs Hlen. split; [|apply mod_2_cases].
    apply number_rule_value; [done|]. by rewrite Hlen.
Qed.

Lemma X26_evolve_binary_rule_witness :
  (∃ g, evolve_exn (λ s _, nks_rule s 30) 1 [0; 0; 1; 0; 0] 3 = Ok g
        ∧ length g = 3%nat ∧ g !! 0%nat = Some [0; 0; 1; 0; 0]
        ∧ Forall (λ row, binary row ∧ length row = length [0; 0; 1; 0; 0]) g)
  ∧ (∃ g, evolve_exn (λ s _, number_rule s 30) 1 [0; 0; 1; 0; 0] 3 = Ok g
          ∧ length g = 3%nat ∧ g !! 0%nat = Some [0; 0; 1; 0; 0]
          ∧ Forall (λ row, binary row ∧ length row = length [0; 0; 1; 0; 0]) g).
Proof.
  apply (X26_evolve_binary_rule 30 1 [0; 0; 1; 0; 0] 3).
  - lia.
  - simpl. lia.
  - repeat (constructor; [cbn; lia|]). constructor.
  - simpl. lia.
Defined.

(** X27. Evolving with the totalistic rule at radius 1: for [k] in
    [[2, 36]], a rule number below [k^(3k-2)] and an initial row with cells
    in [[0, k-1]], [evolve] returns a grid of [n_steps] rows of the length of
    the initial row, with all cells in [[0, k-1]]; the rule never raises on
    the way. *)
Theorem X27_evolve_totalistic_rule (k rule : Z) (init : list Z) (n_steps : nat) :
  2 ≤ k ≤ 36 → 0 ≤ rule < k ^ (3 * k - 2) →
  (1 ≤ n_steps)%nat → (1 ≤ length init)%nat → cell_states k init →
  ∃ g, evolve_exn (λ s _, totalistic_rule s k rule) 1 init n_steps = Ok g
       ∧ length g = n_steps ∧ g !! 0%nat = Some init
       ∧ Forall (λ row, cell_states k row ∧ length row = length init) g.
Proof.
  intros Hk Hrule Hn HN Hinit.
  apply (evolve_exn_closed (λ c, 0 ≤ c ≤ k - 1) (λ s _, totalistic_rule s k rule)
           (λ s _, (rule `div` k ^ foldl Z.add 0 s) `mod` k));
    [done|lia|exact Hinit|].
  intros s c Hs Hlen. split.
  - apply totalistic_rule_value; [done..|]. rewrite Hlen. cbn. lia.
  - pose proof (Z.mod_pos_bound (rule `div` k ^ foldl Z.add 0 s) k). lia.
Qed.

Lemma X27_evolve_totalistic_rule_witness :
  ∃ g, evolve_exn (λ s _, totalistic_rule s 3 777) 1 [0; 0; 1; 0; 0] 3 = Ok g
       ∧ length g = 3%nat ∧ g !! 0%nat = Some [0; 0; 1; 0; 0]
       ∧ Forall (λ row, cell_states 3 row ∧ length row = length [0; 0; 1; 0; 0]) g.
Proof.
  apply (X27_evolve_totalistic_rule 3 777 [0; 0; 1; 0; 0] 3).
  - lia.
  - simpl. lia.
  - lia.
  - simpl. lia.
  - repeat (constructor; [cbn; lia|]). constructor.
Defined.

(** X28. Evolving with a generated table: for [k] in [[2, 10]], the table
    that [random_rule_table] returns for radius [r] makes [table_rule] a rule
    function that never raises its lookup error on rows with cells in
    [[0, k-1]]: [evolve] returns a grid of [n_steps] rows of the length of
    the initial row, with all cells in [[0, k-1]]. *)
Theorem X28_evolve_generated_table (src : random_source) (k : Z) (r : nat)
    (lambda_val : option Q) (quiescent_state : option Z)
    (strong_quiescence isotropic : bool) (init : list Z) (n_steps : nat) :
  2 ≤ k ≤ 10 → (1 ≤ n_steps)%nat → (1 ≤ r ≤ length init)%nat →
  (∀ q0, quiescent_state = Some q0 → 0 ≤ q0 ≤ k - 1) →
  cell_states k init →
  ∃ tbl lam q,
    random_rule_table src k (Z.of_nat r) lambda_val quiescent_state
      strong_quiescence isotropic = Ok (tbl, lam, q)
    ∧ ∃ g, evolve_exn (λ s _, table_rule s tbl) r init n_steps = Ok g
           ∧ length g = n_steps ∧ g !! 0%nat = Some init
           ∧ Forall (λ row, cell_states k row ∧ length row = length init) g.
Proof.
  intros Hk Hn Hr Hqs Hinit.
  destruct (random_rule_table_values src k (Z.of_nat r) lambda_val quiescent_state
              strong_quiescence isotropic ltac:(lia) ltac:(lia) Hqs)
    as (tbl & lam & q & Hres & _ & _ & Hvalues & Hdom).
  exists tbl, lam, q. split; [done|].
  apply (evolve_exn_closed (λ c, 0 ≤ c ≤ k - 1) (λ s _, table_rule s tbl)
           (λ s _, default 0 (tbl !! state_repr s))); [done|done|exact Hinit|].
  intros s c Hs Hlen.
  assert (is_Some (tbl !! state_repr s)) as [v Hv].
  { apply Hdom.
    replace (k ^ (2 * Z.of_nat r + 1)) with (k ^ Z.of_nat (Z.to_nat (2 * Z.of_nat r + 1)))
      by (f_equal; lia).
    apply word_digits; [lia|]. exists s. split; [lia|]. split; [exact Hs|].
    apply state_repr_digits. eapply Forall_impl; [exact Hs|]. cbn. lia. }
  rewrite (table_rule_found s tbl v Hv), Hv. split; [done|].
  by apply (Hvalues _ _ Hv).
Qed.

Lemma X28_evolve_generated_table_witness :
  ∃ tbl lam q,
    random_rule_table alternating_source 3 (Z.of_nat 1) None (Some 0) true false
    = Ok (tbl, lam, q)
    ∧ ∃ g, evolve_exn (λ s _, table_rule s tbl) 1 [0; 2; 1; 0] 3 = Ok g
           ∧ length g = 3%nat ∧ g !! 0%nat = Some [0; 2; 1; 0]
           ∧ Forall (λ row, cell_states 3 row ∧ length row = length [0; 2; 1; 0]) g.
Proof.
  apply (X28_evolve_generated_table alternating_source 3 1 None (Some 0) true false
           [0; 2; 1; 0] 3).
  - lia.
  - lia.
  - simpl. lia.
  - intros q0 Hq0. injection Hq0 as <-. lia.
  - repeat (constructor; [cbn; lia|]). constructor.
Defined.

Lemma length_state_repr (state : list Z) :
  Forall (λ c, 0 ≤ c) state →
  (length state ≤ length (state_repr state))%nat
  ∧ (Exists (λ c, 10 ≤ c) state → (length state < length (state_repr state))%nat).
Proof.
  unfold state_repr. induction 1 as [|c l Hc _ [IH1 IH2]]; cbn [fmap list_fmap concat].
  - split; [done|]. intros H. by apply Exists_nil in H.
  - rewrite length_app. cbn [length].
    destruct (length_str_of_int c Hc) as [H1 H2].
    split; [lia|]. intros [Hbig|Hbig]%Exists_cons.
    + specialize (H2 Hbig). lia.
    + specialize (IH2 Hbig). lia.
Qed.

(** X29. Above ten colors the generated table and the table rule do not
    agree on the keys: the generator writes a cell as one digit of the
    alphabet 0-9, A-Z, the table rule writes it in decimal.  For [k] in
    [[11, 36]], on a neighborhood of [2r+1] non-negative cells one of which
    is 10 or more, [table_rule] with the table that [random_rule_table]
    returns raises its lookup error. *)
Theorem X29_table_rule_above_ten_colors (src : random_source) (k r : Z)
    (lambda_val : option Q) (quiescent_state : option Z)
    (strong_quiescence isotropic : bool) :
  11 ≤ k ≤ 36 → 1 ≤ r →
  (∀ q0, quiescent_state = Some q0 → 0 ≤ q0 ≤ k - 1) →
  ∃ tbl lam q,
    random_rule_table src k r lambda_val quiescent_state strong_quiescence isotropic
    = Ok (tbl, lam, q)
    ∧ ∀ state, Z.of_nat (length state) = 2 * r + 1 →
        Forall (λ c, 0 ≤ c) state → Exists (λ c, 10 ≤ c) state →
        table_rule state tbl
        = Raise (Exception (String.append "could not find state '"
                              (String.append (string_of_list_ascii (state_repr state))
                                             "' in table"))).
Proof.
  intros Hk Hr Hqs.
  destruct (random_rule_table_values src k r lambda_val quiescent_state
              strong_quiescence isotropic ltac:(lia) ltac:(lia) Hqs)
    as (tbl & lam & q & Hres & _ & _ & _ & Hdom).
  exists tbl, lam, q. split; [done|].
  intros state Hlen Hnonneg Hbig.
  apply table_rule_missing, eq_None_not_Some. intros Hsome.
  apply Hdom in Hsome as (i & _ & Hword).
  apply (f_equal length) in Hword.
  unfold word in Hword. rewrite length_fmap, length_expansion in Hword.
  destruct (length_state_repr state Hnonneg) as [_ Hlt].
  specialize (Hlt Hbig). lia.
Qed.

Lemma X29_table_rule_above_ten_colors_witness :
  ∃ tbl lam q,
    random_rule_table alternating_source 11 1 None (Some 0) false false
    = Ok (tbl, lam, q)
    ∧ ∀ state, Z.of_nat (length state) = 2 * 1 + 1 →
        Forall (λ c, 0 ≤ c) state → Exists (λ c, 10 ≤ c) state →
        table_rule state tbl
        = Raise (Exception (String.append "could not find state '"
                              (String.append (string_of_list_ascii (state_repr state))
                                             "' in table"))).
Proof.
  apply (X29_table_rule_above_ten_colors alternating_source 11 1 None (Some 0) false false).
  - lia.
  - lia.
  - intros q0 Hq0. injection Hq0 as <-. lia.
Defined.
